(** * Statistics calculator (mean, median, mode): a shallow embedding of
    [statistics_calculator.c] and the properties its specification states.

    Conventions of the embedding.
    - A C [int] is a [Z] in the range [INT_MIN .. INT_MAX]; arithmetic on
      [int] is followed by [int_wrap], the two's-complement wrap-around
      (what the machine's [add]/[sub] instruction computes; C itself leaves
      signed overflow undefined).
    - A C [long] is a [Z] wrapped to [long_bits] bits; the source does not
      fix the width of [long], so it is a variable of the development
      (64 on LP64 platforms).
    - A C [double] is an IEEE-754 binary64 value, [spec_float] with
      precision 53 and maximal exponent 1024.
    - An array passed as [(int* arr, int size)] is the list of its [size]
      elements.
    - Allocation is assumed to succeed: the branches taken when [malloc]
      returns [NULL] are not modelled. *)

From Stdlib Require Import ZArith List Lia Permutation Sorted Ascii.
From Stdlib Require Import SpecFloat DecimalString.
From stdpp Require Import base list sorting strings gmap.

Local Open Scope Z_scope.

(** * Part I: the program *)

(** ** Machine integers *)

Definition INT_MIN : Z := - 2 ^ 31.

Definition INT_MAX : Z := 2 ^ 31 - 1.

(** Two's-complement reduction of [z] to a signed [w]-bit value. *)
Definition wrap (w : Z) (z : Z) : Z :=
  (z + 2 ^ (w - 1)) mod 2 ^ w - 2 ^ (w - 1).

Definition int_wrap : Z -> Z := wrap 32.

Definition is_int (z : Z) : Prop := INT_MIN <= z <= INT_MAX.

(** A sample as the calculators receive it: every element is an [int] and
    the element count is itself an [int]. *)
Definition is_sample (arr : list Z) : Prop :=
  Forall is_int arr /\ Z.of_nat (length arr) <= INT_MAX.

(** Reading [a[i]] for an [int] index [i]. *)
Definition at_index (a : list Z) (i : Z) : Z := nth (Z.to_nat i) a 0.

(** The in-place store [a[i] = v]. *)
Definition store (a : list Z) (i : Z) (v : Z) : list Z :=
  <[Z.to_nat i := v]> a.

(** ** IEEE-754 binary64 *)

Definition double : Type := spec_float.

Definition dprec : Z := 53.

Definition demax : Z := 1024.

(** Conversion of an integer to [double] (round to nearest, ties to even). *)
Definition double_of_Z (z : Z) : double :=
  binary_normalize dprec demax z 0 false.

Definition ddiv (x y : double) : double := SFdiv dprec demax x y.

(** The literal [0.0]. *)
Definition d_zero : double := S754_zero false.

(** The literal [2.0]. *)
Definition d_two : double := Eval vm_compute in double_of_Z 2.

(** ** [compare]: the comparator handed to [qsort] *)

Definition compare (a b : Z) : Z := int_wrap (a - b).

(** ** [qsort]

    [qsort] belongs to the C library, not to this program.  It is modelled
    by the top-down merge sort of the GNU C library ([msort_with_tmp]):
    split at [n / 2], sort both halves, merge taking from the left half
    whenever the comparator returns a value [<= 0].  The recursion is
    bounded by a fuel that [qsort] sets to the array length, which always
    suffices ([msort_with_tmp_fuel] below). *)
Section Qsort.

Variable cmp : Z -> Z -> Z.

Fixpoint merge (l1 : list Z) : list Z -> list Z :=
  fix merge_aux (l2 : list Z) : list Z :=
    match l1, l2 with
    | [], _ => l2
    | _, [] => l1
    | x1 :: l1', x2 :: l2' =>
        if cmp x1 x2 <=? 0 then x1 :: merge l1' l2 else x2 :: merge_aux l2'
    end.

Fixpoint msort_with_tmp (fuel : nat) (b : list Z) : list Z :=
  match fuel with
  | O => b
  | S fuel' =>
      let n := length b in
      if (n <=? 1)%nat then b
      else
        let n1 := (n / 2)%nat in
        merge (msort_with_tmp fuel' (firstn n1 b))
              (msort_with_tmp fuel' (skipn n1 b))
  end.

Definition qsort (b : list Z) : list Z := msort_with_tmp (length b) b.

(** The order the comparator induces: [x] may stand before [y]. *)
Definition cmp_le (x y : Z) : Prop := cmp x y <= 0.

(** The comparator is consistent on a set of values when the induced
    relation is total and transitive there; only then does C promise a
    sorted result. *)
Definition consistent_on (d : list Z) : Prop :=
  (forall x y, In x d -> In y d -> cmp_le x y \/ cmp_le y x) /\
  (forall x y z, In x d -> In y d -> In z d ->
                 cmp_le x y -> cmp_le y z -> cmp_le x z).

End Qsort.

(** A second model of the library sort, used only to cross-check the
    inputs on which the comparator is inconsistent: the insertion sort
    that BSD C libraries run on short arrays, which moves an element left
    while the comparator puts its left neighbour after it.  The prefix
    already sorted is kept reversed. *)
Fixpoint insert_left (cmp : Z -> Z -> Z) (x : Z) (rev_prefix : list Z) : list Z :=
  match rev_prefix with
  | [] => [x]
  | y :: rest =>
      if 0 <? cmp y x then y :: insert_left cmp x rest else x :: rev_prefix
  end.

Definition insertion_sort (cmp : Z -> Z -> Z) (b : list Z) : list Z :=
  rev (fold_left (fun rev_prefix x => insert_left cmp x rev_prefix) b []).

(** ** [calculate_mean] *)

Section Mean.

(** Width of the C type [long] in bits. *)
Variable long_bits : Z.

Definition long_wrap : Z -> Z := wrap long_bits.

(** The accumulation loop [for (i = 0; i < size; i++) sum += arr[i];]. *)
Definition mean_sum (arr : list Z) : Z :=
  fold_left (fun sum x => long_wrap (sum + x)) arr 0.

Definition calculate_mean (arr : list Z) : double :=
  let size := Z.of_nat (length arr) in
  if size =? 0 then d_zero
  else
    let sum := mean_sum arr in
    ddiv (double_of_Z sum) (double_of_Z size).

End Mean.

(** ** [calculate_median] *)

(** The selection made on the sorted copy. *)
Definition median_select (sorted_arr : list Z) (size : Z) : double :=
  if Z.rem size 2 =? 0 then
    ddiv (double_of_Z (int_wrap (at_index sorted_arr (Z.quot size 2 - 1)
                                 + at_index sorted_arr (Z.quot size 2))))
         d_two
  else double_of_Z (at_index sorted_arr (Z.quot size 2)).

Definition calculate_median (arr : list Z) : double :=
  let size := Z.of_nat (length arr) in
  if size =? 0 then d_zero
  else
    let sorted_arr := qsort compare arr in
    median_select sorted_arr size.

(** ** [calculate_mode] *)

Record ModeResult : Type := mkModeResult {
  modes : list Z;
  count : Z;
  frequency : Z
}.

(** First pass: the loop state is
    [(max_frequency, current_frequency, current_value)]. *)
Definition pass1_step (st : Z * Z * Z) (x : Z) : Z * Z * Z :=
  let '(max_frequency, current_frequency, current_value) := st in
  if x =? current_value then
    (max_frequency, int_wrap (current_frequency + 1), current_value)
  else
    ((if current_frequency >? max_frequency
      then current_frequency else max_frequency), 1, x).

(** The check of the final run after the loop. *)
Definition pass1_final (st : Z * Z * Z) : Z :=
  let '(max_frequency, current_frequency, _) := st in
  if current_frequency >? max_frequency
  then current_frequency else max_frequency.

Definition pass1 (sorted_arr : list Z) : Z :=
  pass1_final
    (fold_left pass1_step (tail sorted_arr) (1, 1, at_index sorted_arr 0)).

(** Second pass: the loop state is
    [(temp_modes, mode_count, current_frequency, current_value)];
    [temp_modes[mode_count++] = v] is an in-place store. *)
Definition pass2_step (max_frequency : Z)
    (st : list Z * Z * Z * Z) (x : Z) : list Z * Z * Z * Z :=
  let '(temp_modes, mode_count, current_frequency, current_value) := st in
  if x =? current_value then
    (temp_modes, mode_count, int_wrap (current_frequency + 1), current_value)
  else
    if current_frequency =? max_frequency then
      (store temp_modes mode_count current_value,
       int_wrap (mode_count + 1), 1, x)
    else (temp_modes, mode_count, 1, x).

(** The check of the final value after the loop. *)
Definition pass2_final (max_frequency : Z) (st : list Z * Z * Z * Z)
    : list Z * Z :=
  let '(temp_modes, mode_count, current_frequency, current_value) := st in
  if current_frequency =? max_frequency then
    (store temp_modes mode_count current_value, int_wrap (mode_count + 1))
  else (temp_modes, mode_count).

Definition pass2 (max_frequency : Z) (sorted_arr : list Z) (temp_modes : list Z)
    : list Z * Z :=
  pass2_final max_frequency
    (fold_left (pass2_step max_frequency) (tail sorted_arr)
               (temp_modes, 0, 1, at_index sorted_arr 0)).

(** The scan of the sorted copy: both passes and the exact-size copy of
    the first [mode_count] cells of [temp_modes]. *)
Definition mode_scan (sorted_arr : list Z) (size : Z) : ModeResult :=
  let max_frequency := pass1 sorted_arr in
  let temp_modes := replicate (Z.to_nat size) 0 in
  let '(temp_modes, mode_count) := pass2 max_frequency sorted_arr temp_modes in
  {| modes := firstn (Z.to_nat mode_count) temp_modes;
     count := mode_count;
     frequency := max_frequency |}.

Definition calculate_mode (arr : list Z) : ModeResult :=
  let size := Z.of_nat (length arr) in
  if size =? 0 then {| modes := []; count := 0; frequency := 0 |}
  else
    let sorted_arr := qsort compare arr in
    mode_scan sorted_arr size.

(** ** The calculators on memory

    To state that a calculator leaves the caller's array alone, the same
    functions are modelled over a heap of [int] arrays: a pointer is the
    name of a block, [malloc] returns a block that is not in use (its
    cells, unspecified in C, are zeros here), [free] removes a block, and
    [memcpy] and [qsort] overwrite the first [n] cells of their target.
    The loops are the ones above, run on the cells they read. *)

Abbreviation heap := (gmap nat (list Z)).

Definition load (p : nat) (h : heap) : list Z := default [] (h !! p).

(** The cells [p[0] .. p[n-1]]. *)
Definition read_array (p : nat) (n : Z) (h : heap) : list Z :=
  firstn (Z.to_nat n) (load p h).

(** Overwriting the cells [p[0] .. p[n-1]] with [data]. *)
Definition write_array (p : nat) (n : Z) (data : list Z) (h : heap) : heap :=
  match h !! p with
  | Some old => <[p := firstn (Z.to_nat n) data ++ skipn (Z.to_nat n) old]> h
  | None => h
  end.

Definition malloc (n : Z) (h : heap) : nat * heap :=
  let p := fresh (dom h) in (p, <[p := replicate (Z.to_nat n) 0]> h).

Definition free (p : nat) (h : heap) : heap := delete p h.

Definition memcpy (dst src : nat) (n : Z) (h : heap) : heap :=
  write_array dst n (read_array src n h) h.

Definition qsort_mem (base : nat) (nmemb : Z) (cmp : Z -> Z -> Z) (h : heap)
    : heap :=
  write_array base nmemb (qsort cmp (read_array base nmemb h)) h.

(** [ModeResult] as the C struct: [modes] is a pointer, [None] for [NULL]. *)
Record ModeResult_mem : Type := mkModeResult_mem {
  modes_ptr : option nat;
  count_mem : Z;
  frequency_mem : Z
}.

Definition calculate_mean_mem (long_bits : Z) (arr : nat) (size : Z) (h : heap)
    : double * heap :=
  if size =? 0 then (d_zero, h)
  else
    let sum := mean_sum long_bits (read_array arr size h) in
    (ddiv (double_of_Z sum) (double_of_Z size), h).

Definition calculate_median_mem (arr : nat) (size : Z) (h : heap)
    : double * heap :=
  if size =? 0 then (d_zero, h)
  else
    let '(sorted_arr, h) := malloc size h in
    let h := memcpy sorted_arr arr size h in
    let h := qsort_mem sorted_arr size compare h in
    let median := median_select (read_array sorted_arr size h) size in
    let h := free sorted_arr h in
    (median, h).

Definition calculate_mode_mem (arr : nat) (size : Z) (h : heap)
    : ModeResult_mem * heap :=
  if size =? 0 then
    ({| modes_ptr := None; count_mem := 0; frequency_mem := 0 |}, h)
  else
    let '(sorted_arr, h) := malloc size h in
    let h := memcpy sorted_arr arr size h in
    let h := qsort_mem sorted_arr size compare h in
    let max_frequency := pass1 (read_array sorted_arr size h) in
    let '(temp_modes, h) := malloc size h in
    let '(temp, mode_count) :=
      pass2 max_frequency (read_array sorted_arr size h) (load temp_modes h) in
    let h := <[temp_modes := temp]> h in
    let '(result_modes, h) := malloc mode_count h in
    let h := memcpy result_modes temp_modes mode_count h in
    let h := free sorted_arr h in
    let h := free temp_modes h in
    ({| modes_ptr := Some result_modes; count_mem := mode_count;
        frequency_mem := max_frequency |}, h).

(** What the caller reads from a returned [ModeResult]. *)
Definition mode_result_of (r : ModeResult_mem * heap) : ModeResult :=
  {| modes := match modes_ptr (fst r) with
              | Some p => load p (snd r)
              | None => []
              end;
     count := count_mem (fst r);
     frequency := frequency_mem (fst r) |}.

(** ** The report

    Output written with [printf] is modelled as the string of characters
    written.  The conversions [%d] and [%.2f] belong to the C library;
    [%.2f] is modelled as the exact value rounded to two decimals, ties to
    even, as the GNU C library prints it. *)

(** The newline character. *)
Definition nl : string := String "010" EmptyString.

(** [printf("%d", z)]. *)
Definition print_int (z : Z) : string := NilZero.string_of_int (Z.to_int z).

(** The decimal digit [d] as a one-character string. *)
Definition digit (d : Z) : string :=
  String (ascii_of_nat (48 + Z.to_nat d)) EmptyString.

(** The integer nearest to [m * 2^e * 100], ties to even. *)
Definition hundredths (m : positive) (e : Z) : Z :=
  if 0 <=? e then Zpos m * 2 ^ e * 100
  else
    let d := 2 ^ (- e) in
    let q := (Zpos m * 100) / d in
    let r := (Zpos m * 100) mod d in
    if 2 * r <? d then q
    else if d <? 2 * r then q + 1
    else if Z.even q then q else q + 1.

Definition sign_string (s : bool) : string := if s then "-" else "".

(** [printf("%.2f", x)]. *)
Definition print_fixed2 (x : double) : string :=
  match x with
  | S754_zero s => sign_string s +:+ "0.00"
  | S754_infinity s => sign_string s +:+ "inf"
  | S754_nan => "nan"
  | S754_finite s m e =>
      let n := hundredths m e in
      sign_string s +:+ print_int (n / 100) +:+ "."
        +:+ digit ((n / 10) mod 10) +:+ digit (n mod 10)
  end.

(** The loop [for (i = 0; i < size; i++) { printf("%d", a[i]);
    if (i < size - 1) printf(", "); }] shared by [print_array] and the
    multiple-modes branch of [print_statistics]. *)
Definition print_elems (a : list Z) (size : Z) : string :=
  fold_left
    (fun out i =>
       out +:+ print_int (at_index a i) +:+ (if i <? size - 1 then ", " else ""))
    (seqZ 0 size) "".

Definition print_array (arr : list Z) (size : Z) : string :=
  "[" +:+ print_elems arr size +:+ "]".

Definition print_statistics (long_bits : Z) (arr : list Z) : string :=
  let size := Z.of_nat (length arr) in
  "Array: " +:+ print_array arr size +:+ nl +:+
  if size =? 0 then "Cannot calculate statistics for empty array." +:+ nl
  else
    let mean := calculate_mean long_bits arr in
    let median := calculate_median arr in
    let mode_result := calculate_mode arr in
    "Mean: " +:+ print_fixed2 mean +:+ nl +:+
    "Median: " +:+ print_fixed2 median +:+ nl +:+
    "Mode: " +:+
    (if count mode_result =? 1 then
       print_int (at_index (modes mode_result) 0) +:+ " (frequency: "
         +:+ print_int (frequency mode_result) +:+ ")" +:+ nl
     else
       "[" +:+ print_elems (modes mode_result) (count mode_result)
         +:+ "] (frequency: " +:+ print_int (frequency mode_result)
         +:+ " each)" +:+ nl)
    +:+ nl.

(** ** [free_mode_result]

    The struct is updated through a pointer in C; here the updated struct
    is returned with the heap. *)
Definition free_mode_result (result : ModeResult_mem) (h : heap)
    : ModeResult_mem * heap :=
  let h := match modes_ptr result with
           | Some p => free p h
           | None => h
           end in
  ({| modes_ptr := None; count_mem := 0; frequency_mem := 0 |}, h).

(** ** [print_statistics] on memory: the calls in sequence, the mode
    values read from the block [calculate_mode] returned, and the block
    released by [free_mode_result] before the last newline. *)
Definition print_statistics_mem (long_bits : Z) (arr : nat) (size : Z) (h : heap)
    : string * heap :=
  let out := "Array: " +:+ print_array (load arr h) size +:+ nl in
  if size =? 0 then
    (out +:+ "Cannot calculate statistics for empty array." +:+ nl, h)
  else
    let '(mean, h) := calculate_mean_mem long_bits arr size h in
    let out := out +:+ "Mean: " +:+ print_fixed2 mean +:+ nl in
    let '(median, h) := calculate_median_mem arr size h in
    let out := out +:+ "Median: " +:+ print_fixed2 median +:+ nl in
    let '(mode_result, h) := calculate_mode_mem arr size h in
    let out := out +:+ "Mode: " in
    let result_modes := match modes_ptr mode_result with
                        | Some p => load p h
                        | None => []
                        end in
    let out :=
      if count_mem mode_result =? 1 then
        out +:+ print_int (at_index result_modes 0) +:+ " (frequency: "
            +:+ print_int (frequency_mem mode_result) +:+ ")" +:+ nl
      else
        out +:+ "[" +:+ print_elems result_modes (count_mem mode_result)
            +:+ "] (frequency: " +:+ print_int (frequency_mem mode_result)
            +:+ " each)" +:+ nl in
    let '(_, h) := free_mode_result mode_result h in
    (out +:+ nl, h).

(** ** [main]: the text written and the exit status. *)
Definition main (long_bits : Z) : string * Z :=
  let out := "=== C Statistics Calculator (Procedural Approach) ===" +:+ nl +:+ nl in
  let out := out +:+ print_statistics long_bits [1; 2; 3; 4; 5; 5; 5] in
  let out := out +:+ print_statistics long_bits [1; 1; 2; 2; 3; 3] in
  let out := out +:+ print_statistics long_bits [42] in
  let out := out +:+ print_statistics long_bits [1; 2; 3; 4] in
  let out := out +:+ print_statistics long_bits [] in
  (out, 0).

(** * Part II: the notions of the specification *)

(** The precondition under which [compare] is exact: the difference of
    every two values of the array is itself an [int]. *)
Definition diff_fits (arr : list Z) : Prop :=
  forall x y, In x arr -> In y arr -> is_int (x - y).

(** The exact sum of a list of integers. *)
Definition sum_of (l : list Z) : Z := fold_right Z.add 0 l.

(** The [double] [x] holds exactly the integer [z]. *)
Definition represents (x : double) (z : Z) : Prop :=
  match x with
  | S754_zero _ => z = 0
  | S754_finite s m e =>
      e <= 0 /\ (if s then - Zpos m else Zpos m) = z * 2 ^ (- e)
  | _ => False
  end.

(** A [double] that is a number: zero or finite. *)
Definition is_number (x : double) : Prop :=
  match x with
  | S754_zero _ | S754_finite _ _ _ => True
  | _ => False
  end.

(** What [binary_round_aux] returns on a mantissa of at most 200 bits and
    a moderate exponent: zero, or a finite number whose mantissa is at
    most the given one plus one. *)
Definition rounded_from (mx ex : Z) (x : double) : Prop :=
  match x with
  | S754_zero _ => True
  | S754_finite _ m e => Zpos m <= mx + 1 /\ ex <= e <= ex + 300
  | _ => False
  end.

(** A [double] of moderate size: zero, or finite with a mantissa below
    [2^64] and an exponent between [-64] and [400]. *)
Definition small_double (x : double) : Prop :=
  match x with
  | S754_zero _ => True
  | S754_finite _ m e => Zpos m < 2 ^ 64 /\ -64 <= e <= 400
  | _ => False
  end.

(** A [double] that is finite and not zero. *)
Definition is_finite (x : double) : Prop :=
  match x with
  | S754_finite _ _ _ => True
  | _ => False
  end.

(** Number of occurrences of [x] in [l]. *)
Definition mult (x : Z) (l : list Z) : Z := Z.of_nat (count_occ Z.eq_dec l x).

(** The largest multiplicity of a value of [l] ([0] for the empty list). *)
Definition max_mult (l : list Z) : Z :=
  fold_right (fun x acc => Z.max (mult x l) acc) 0 l.

(** The maximal runs of equal adjacent values, as [(value, length)] pairs;
    [runs_from v c xs] has a run of [v] of length [c] pending. *)
Fixpoint runs_from (v c : Z) (xs : list Z) : list (Z * Z) :=
  match xs with
  | [] => [(v, c)]
  | x :: xs' =>
      if x =? v then runs_from v (c + 1) xs' else (v, c) :: runs_from x 1 xs'
  end.

Definition runs (s : list Z) : list (Z * Z) :=
  match s with
  | [] => []
  | v :: xs => runs_from v 1 xs
  end.

(** Largest run length, starting from [m]. *)
Definition max_run (m : Z) (r : list (Z * Z)) : Z :=
  fold_right (fun p acc => Z.max (snd p) acc) m r.

(** Values of the runs whose length is [M], in order of appearance. *)
Definition runs_of_length (M : Z) (r : list (Z * Z)) : list Z :=
  map fst (List.filter (fun p => snd p =? M) r).

(** The median as the specification words it, on an ascending list:
    the middle element for an odd length, the average of the two middle
    elements (their sum divided by [2.0]) for an even one. *)
Definition median_of_ascending (s : list Z) : double :=
  let n := length s in
  if Nat.even n then
    ddiv (double_of_Z (nth (n / 2 - 1) s 0 + nth (n / 2) s 0)) d_two
  else double_of_Z (nth (n / 2) s 0).

(** The array literal of the report: the elements in decimal, separated
    by a comma and a space, between brackets. *)
Definition array_literal (l : list Z) : string :=
  "[" +:+ String.concat ", " (map print_int l) +:+ "]".

(** Every element followed by the separator. *)
Definition sep_all (l : list Z) : string :=
  fold_right (fun x acc => print_int x +:+ ", " +:+ acc) "" l.

(** The Mode line of the report as the specification words it: a single
    mode bare, several modes as a bracketed list, each with the frequency. *)
Definition mode_line (r : ModeResult) : string :=
  match modes r with
  | [v] => print_int v +:+ " (frequency: " +:+ print_int (frequency r) +:+ ")"
  | vs => array_literal vs +:+ " (frequency: " +:+ print_int (frequency r)
                           +:+ " each)"
  end.

(** Executable forms of the hypotheses on concrete samples. *)
Definition is_intb (z : Z) : bool := (INT_MIN <=? z) && (z <=? INT_MAX).

Definition is_sampleb (arr : list Z) : bool :=
  forallb is_intb arr && (Z.of_nat (length arr) <=? INT_MAX).

Definition diff_fitsb (arr : list Z) : bool :=
  forallb (fun x => forallb (fun y => is_intb (x - y)) arr) arr.

Definition consistent_onb (cmp : Z -> Z -> Z) (d : list Z) : bool :=
  forallb (fun x => forallb (fun y =>
    (cmp x y <=? 0) || (cmp y x <=? 0)) d) d &&
  forallb (fun x => forallb (fun y => forallb (fun z =>
    implb ((cmp x y <=? 0) && (cmp y z <=? 0)) (cmp x z <=? 0)) d) d) d.

Definition separatesb (cmp : Z -> Z -> Z) (d : list Z) : bool :=
  forallb (fun x => forallb (fun y =>
    implb ((cmp x y <=? 0) && (cmp y x <=? 0)) (x =? y)) d) d.

(** A rendering with exactly two decimals: an optional sign, an integer
    part, a point and two digits. *)
Definition two_decimals (s : string) : Prop :=
  exists (neg : bool) (ip d1 d2 : Z),
    0 <= ip /\ 0 <= d1 <= 9 /\ 0 <= d2 <= 9 /\
    s = sign_string neg +:+ print_int ip +:+ "." +:+ digit d1 +:+ digit d2.

(** A sample whose sum is above [2^53]: [2^22 + 1] copies of [INT_MAX].
    Its sum is [(2^22 + 1) * INT_MAX = 2^53 + 2^31 - 2^22 - 1], an odd
    number, and its mean is [INT_MAX]. *)
Definition large_sum_sample : list Z := replicate (Z.to_nat 4194305) INT_MAX.

(** * Part III: properties *)

(** ** Machine arithmetic *)

Lemma wrap_small (w z : Z) :
  0 < w -> - 2 ^ (w - 1) <= z < 2 ^ (w - 1) -> wrap w z = z.
Proof.
  intros Hw Hz. unfold wrap.
  assert (Hp : 2 ^ w = 2 * 2 ^ (w - 1)).
  { replace w with (Z.succ (w - 1)) at 1 by lia. apply Z.pow_succ_r. lia. }
  rewrite Z.mod_small; lia.
Qed.

Lemma wrap_range (w z : Z) :
  0 < w -> - 2 ^ (w - 1) <= wrap w z < 2 ^ (w - 1).
Proof.
  intros Hw. unfold wrap.
  assert (Hp : 2 ^ w = 2 * 2 ^ (w - 1)).
  { replace w with (Z.succ (w - 1)) at 1 by lia. apply Z.pow_succ_r. lia. }
  assert (0 < 2 ^ (w - 1)) by (apply Z.pow_pos_nonneg; lia).
  pose proof (Z.mod_pos_bound (z + 2 ^ (w - 1)) (2 ^ w)). lia.
Qed.

(** Wrapping is a congruence for addition: the wrapped value differs from
    the exact one by a multiple of [2 ^ w]. *)
Lemma wrap_add_l (w a b : Z) : wrap w (wrap w a + b) = wrap w (a + b).
Proof.
  unfold wrap. f_equal.
  replace ((a + 2 ^ (w - 1)) mod 2 ^ w - 2 ^ (w - 1) + b + 2 ^ (w - 1))
    with ((a + 2 ^ (w - 1)) mod 2 ^ w + b) by lia.
  replace (a + b + 2 ^ (w - 1)) with ((a + 2 ^ (w - 1)) + b) by lia.
  destruct (Z.eq_dec (2 ^ w) 0) as [E | E].
  - rewrite E, !Z.mod_0_r. lia.
  - rewrite Zplus_mod_idemp_l. reflexivity.
Qed.

Lemma int_wrap_small (z : Z) : is_int z -> int_wrap z = z.
Proof.
  unfold is_int, INT_MIN, INT_MAX, int_wrap. intros H.
  apply wrap_small; [lia | simpl; lia].
Qed.

Lemma int_wrap_is_int (z : Z) : is_int (int_wrap z).
Proof.
  unfold is_int, INT_MIN, INT_MAX, int_wrap.
  pose proof (wrap_range 32 z ltac:(lia)) as H. simpl in H. lia.
Qed.

(** ** The sort *)

Section QsortFacts.
Variable cmp : Z -> Z -> Z.

Lemma merge_nil_r (l1 : list Z) : merge cmp l1 [] = l1.
Proof. destruct l1; reflexivity. Qed.

Lemma merge_cons (x1 x2 : Z) (l1 l2 : list Z) :
  merge cmp (x1 :: l1) (x2 :: l2) =
  if cmp x1 x2 <=? 0 then x1 :: merge cmp l1 (x2 :: l2)
  else x2 :: merge cmp (x1 :: l1) l2.
Proof. reflexivity. Qed.

Lemma merge_perm (l1 l2 : list Z) : Permutation (merge cmp l1 l2) (l1 ++ l2).
Proof.
  revert l2. induction l1 as [| x1 l1 IH1]; intros l2.
  - destruct l2; reflexivity.
  - induction l2 as [| x2 l2 IH2].
    + rewrite merge_nil_r, app_nil_r. reflexivity.
    + rewrite merge_cons. destruct (cmp x1 x2 <=? 0).
      * simpl. constructor. apply IH1.
      * rewrite IH2. apply (Permutation_middle (x1 :: l1) l2 x2).
Qed.

Lemma msort_with_tmp_perm (fuel : nat) (b : list Z) :
  Permutation (msort_with_tmp cmp fuel b) b.
Proof.
  revert b. induction fuel as [| fuel IH]; intros b; simpl.
  - reflexivity.
  - destruct (length b <=? 1)%nat; [reflexivity |].
    rewrite merge_perm, !IH, firstn_skipn. reflexivity.
Qed.

(** The sort only rearranges its array. *)
Lemma qsort_perm (b : list Z) : Permutation (qsort cmp b) b.
Proof. apply msort_with_tmp_perm. Qed.

Lemma qsort_length (b : list Z) : length (qsort cmp b) = length b.
Proof. apply Permutation_length, qsort_perm. Qed.

(** The recursion depth never exceeds the array length: any larger
    amount of fuel gives the same result. *)
Lemma msort_with_tmp_fuel (fuel : nat) (b : list Z) :
  (length b <= fuel)%nat ->
  msort_with_tmp cmp fuel b = msort_with_tmp cmp (length b) b.
Proof.
  revert b. induction fuel as [fuel IH] using lt_wf_ind. intros b Hb.
  destruct fuel as [| fuel].
  - destruct b; [reflexivity | simpl in Hb; lia].
  - destruct (length b) as [| n] eqn:En.
    + destruct b; [reflexivity | discriminate].
    + cbn [msort_with_tmp]. rewrite En.
      destruct (S n <=? 1)%nat eqn:E1; [reflexivity |].
      apply Nat.leb_gt in E1.
      assert (Hd : (S n / 2 < S n)%nat) by (apply Nat.div_lt; lia).
      assert (Hp : (0 < S n / 2)%nat) by (apply Nat.div_str_pos; lia).
      assert (H1 : length (firstn (S n / 2) b) = (S n / 2)%nat)
        by (rewrite length_firstn; lia).
      assert (H2 : length (skipn (S n / 2) b) = (S n - S n / 2)%nat)
        by (rewrite length_skipn; lia).
      rewrite (IH fuel ltac:(lia) (firstn _ b)) by lia.
      rewrite (IH fuel ltac:(lia) (skipn _ b)) by lia.
      rewrite (IH n ltac:(lia) (firstn _ b)) by lia.
      rewrite (IH n ltac:(lia) (skipn _ b)) by lia.
      reflexivity.
Qed.

Lemma merge_sorted (d l1 l2 : list Z) :
  consistent_on cmp d -> incl l1 d -> incl l2 d ->
  StronglySorted (cmp_le cmp) l1 -> StronglySorted (cmp_le cmp) l2 ->
  StronglySorted (cmp_le cmp) (merge cmp l1 l2).
Proof.
  intros [Htot Htr]. revert l2.
  induction l1 as [| x1 l1 IH1]; intros l2 Hi1 Hi2 Hs1 Hs2.
  - destruct l2; assumption.
  - induction l2 as [| x2 l2 IH2].
    + rewrite merge_nil_r. assumption.
    + rewrite merge_cons.
      assert (Hx1 : In x1 d) by (apply Hi1; left; reflexivity).
      assert (Hx2 : In x2 d) by (apply Hi2; left; reflexivity).
      apply StronglySorted_inv in Hs1 as Hs1'. destruct Hs1' as [Hs1' Hf1].
      apply StronglySorted_inv in Hs2 as Hs2'. destruct Hs2' as [Hs2' Hf2].
      rewrite List.Forall_forall in Hf1, Hf2.
      destruct (cmp x1 x2 <=? 0) eqn:E.
      * apply Z.leb_le in E. constructor.
        -- apply IH1; try assumption.
           intros y Hy. apply Hi1. right. assumption.
        -- rewrite List.Forall_forall. intros y Hy.
           apply (Permutation_in _ (merge_perm l1 (x2 :: l2))) in Hy.
           apply in_app_or in Hy. destruct Hy as [Hy | [Hy | Hy]].
           ++ apply Hf1. assumption.
           ++ subst y. exact E.
           ++ apply (Htr x1 x2 y); try assumption.
              ** apply Hi2. right. assumption.
              ** apply Hf2. assumption.
      * apply Z.leb_gt in E.
        assert (E' : cmp_le cmp x2 x1).
        { destruct (Htot x1 x2 Hx1 Hx2) as [H | H]; [unfold cmp_le in H; lia | exact H]. }
        constructor.
        -- apply IH2; try assumption.
           intros y Hy. apply Hi2. right. assumption.
        -- rewrite List.Forall_forall. intros y Hy.
           apply (Permutation_in _ (merge_perm (x1 :: l1) l2)) in Hy.
           apply in_app_or in Hy. destruct Hy as [[Hy | Hy] | Hy].
           ++ subst y. exact E'.
           ++ apply (Htr x2 x1 y); try assumption.
              ** apply Hi1. right. assumption.
              ** apply Hf1. assumption.
           ++ apply Hf2. assumption.
Qed.

Lemma msort_with_tmp_sorted (d : list Z) (fuel : nat) (b : list Z) :
  consistent_on cmp d -> incl b d -> (length b <= fuel)%nat ->
  StronglySorted (cmp_le cmp) (msort_with_tmp cmp fuel b).
Proof.
  intros Hc. revert b. induction fuel as [| fuel IH]; intros b Hi Hb.
  - destruct b; [constructor | simpl in Hb; lia].
  - cbn [msort_with_tmp].
    destruct (length b <=? 1)%nat eqn:E1.
    + apply Nat.leb_le in E1.
      destruct b as [| x [| y b]]; [constructor | | simpl in E1; lia].
      constructor; constructor.
    + apply Nat.leb_gt in E1.
      assert (Hd : (length b / 2 < length b)%nat) by (apply Nat.div_lt; lia).
      assert (Hp : (0 < length b / 2)%nat) by (apply Nat.div_str_pos; lia).
      assert (Hi1 : incl (firstn (length b / 2) b) d).
      { intros y Hy. apply Hi. rewrite <- (firstn_skipn (length b / 2) b).
        apply in_or_app. left. exact Hy. }
      assert (Hi2 : incl (skipn (length b / 2) b) d).
      { intros y Hy. apply Hi. rewrite <- (firstn_skipn (length b / 2) b).
        apply in_or_app. right. exact Hy. }
      apply (merge_sorted d); try assumption.
      * intros y Hy. apply Hi1.
        eapply Permutation_in; [apply msort_with_tmp_perm | exact Hy].
      * intros y Hy. apply Hi2.
        eapply Permutation_in; [apply msort_with_tmp_perm | exact Hy].
      * apply IH; [exact Hi1 | rewrite length_firstn; lia].
      * apply IH; [exact Hi2 | rewrite length_skipn; lia].
Qed.

(** With a comparator that is consistent on the array's values, the
    result is sorted by it: the contract C gives for [qsort]. *)
Lemma qsort_sorted (b : list Z) :
  consistent_on cmp b -> StronglySorted (cmp_le cmp) (qsort cmp b).
Proof.
  intros Hc. apply (msort_with_tmp_sorted b); [exact Hc | | lia].
  intros y Hy. exact Hy.
Qed.

(** When the comparator moreover separates distinct values, the sorted
    arrangement is unique: every sorting routine that meets C's contract
    returns what [qsort] returns here. *)
Lemma qsort_unique (b s : list Z) :
  consistent_on cmp b ->
  (forall x y, In x b -> In y b -> cmp_le cmp x y -> cmp_le cmp y x -> x = y) ->
  Permutation s b -> StronglySorted (cmp_le cmp) s -> s = qsort cmp b.
Proof.
  intros Hc Hanti Hp Hs.
  apply (StronglySorted_unique_strong (cmp_le cmp)).
  - intros x1 x2 H1 H2. apply Hanti.
    + apply list_elem_of_In in H1. apply (Permutation_in _ Hp). exact H1.
    + apply list_elem_of_In in H2.
      apply (Permutation_in _ (qsort_perm b)). exact H2.
  - exact Hs.
  - apply qsort_sorted. exact Hc.
  - rewrite Hp. symmetry. apply qsort_perm.
Qed.
End QsortFacts.

(** ** The comparator *)

Lemma compare_exact (x y : Z) : is_int (x - y) -> compare x y = x - y.
Proof. apply int_wrap_small. Qed.

(** Outside the precondition the wrapped difference has the wrong sign. *)
Lemma compare_wrapped (x y : Z) :
  is_int x -> is_int y -> ~ is_int (x - y) ->
  (y < x /\ compare x y = x - y - 2 ^ 32 /\ compare x y < 0) \/
  (x < y /\ compare x y = x - y + 2 ^ 32 /\ 0 < compare x y).
Proof.
  unfold is_int, INT_MIN, INT_MAX, compare, int_wrap, wrap.
  change (2 ^ (32 - 1)) with 2147483648.
  change (2 ^ 31) with 2147483648. change (2 ^ 32) with 4294967296.
  intros Hx Hy Hd.
  assert (Hc : 2147483647 < x - y \/ x - y < -2147483648) by lia.
  destruct Hc as [Hc | Hc]; [left | right].
  - assert (E : (x - y + 2147483648) mod 4294967296 = x - y + 2147483648 - 4294967296).
    { symmetry. apply (Z.mod_unique_pos _ _ 1); lia. }
    rewrite E. lia.
  - assert (E : (x - y + 2147483648) mod 4294967296 = x - y + 2147483648 + 4294967296).
    { symmetry. apply (Z.mod_unique_pos _ _ (-1)); lia. }
    rewrite E. lia.
Qed.

Lemma diff_fits_consistent (arr : list Z) :
  diff_fits arr -> consistent_on compare arr.
Proof.
  intros Hd. split.
  - intros x y Hx Hy. unfold cmp_le.
    rewrite (compare_exact x y), (compare_exact y x) by (apply Hd; assumption). lia.
  - intros x y z Hx Hy Hz. unfold cmp_le.
    rewrite (compare_exact x y), (compare_exact y z), (compare_exact x z)
      by (apply Hd; assumption). lia.
Qed.

Lemma StronglySorted_weaken (R1 R2 : Z -> Z -> Prop) (l : list Z) :
  (forall x y, In x l -> In y l -> R1 x y -> R2 x y) ->
  StronglySorted R1 l -> StronglySorted R2 l.
Proof.
  intros HR Hs. induction Hs as [| x l Hs IH Hf]; constructor.
  - apply IH. intros a b Ha Hb. apply HR; right; assumption.
  - rewrite List.Forall_forall in *. intros y Hy.
    apply HR; [left; reflexivity | right; assumption | apply Hf; assumption].
Qed.

(** Under the precondition the sorted copy is the ascending arrangement of
    the sample. *)
Lemma qsort_ascending (arr : list Z) :
  diff_fits arr ->
  StronglySorted Z.le (qsort compare arr) /\ Permutation (qsort compare arr) arr.
Proof.
  intros Hd. split; [| apply qsort_perm].
  apply (StronglySorted_weaken (cmp_le compare)).
  - intros x y Hx Hy. unfold cmp_le.
    apply (Permutation_in _ (qsort_perm compare arr)) in Hx, Hy.
    rewrite compare_exact by (apply Hd; assumption). lia.
  - apply qsort_sorted, diff_fits_consistent, Hd.
Qed.

(** An ascending list is determined by its elements. *)
Lemma ascending_unique (s1 s2 : list Z) :
  Permutation s1 s2 -> StronglySorted Z.le s1 -> StronglySorted Z.le s2 -> s1 = s2.
Proof.
  intros Hp H1 H2. apply (StronglySorted_unique_strong Z.le); try assumption.
  intros x y _ _ Hxy Hyx. lia.
Qed.

(** ** Mean *)

Lemma sum_of_app (l1 l2 : list Z) : sum_of (l1 ++ l2) = sum_of l1 + sum_of l2.
Proof. induction l1 as [| x l1 IH]; simpl; lia. Qed.

Lemma sum_of_perm (l1 l2 : list Z) : Permutation l1 l2 -> sum_of l1 = sum_of l2.
Proof. induction 1; simpl; lia. Qed.

Lemma sum_of_bounds (l : list Z) :
  Forall is_int l ->
  Z.of_nat (length l) * INT_MIN <= sum_of l <= Z.of_nat (length l) * INT_MAX.
Proof.
  unfold is_int, INT_MIN, INT_MAX.
  induction 1 as [| x l Hx Hl IH]; cbn [sum_of fold_right length]; [lia |].
  fold (sum_of l). rewrite Nat2Z.inj_succ. lia.
Qed.

Lemma fold_left_wrap_add (w : Z) (l : list Z) (a : Z) :
  wrap w (fold_left (fun sum x => wrap w (sum + x)) l a) = wrap w (a + sum_of l).
Proof.
  revert a. induction l as [| x l IH]; intros a; simpl.
  - f_equal. lia.
  - rewrite IH, wrap_add_l. f_equal. lia.
Qed.

Lemma wrap_idem (w z : Z) : 0 < w -> wrap w (wrap w z) = wrap w z.
Proof. intros Hw. apply wrap_small; [exact Hw | apply wrap_range, Hw]. Qed.

Lemma wrap_zero (w : Z) : 0 < w -> wrap w 0 = 0.
Proof.
  intros Hw. apply wrap_small; [exact Hw |].
  assert (0 < 2 ^ (w - 1)) by (apply Z.pow_pos_nonneg; lia). lia.
Qed.

(** The accumulator holds the exact sum reduced to the width of [long]. *)
Lemma mean_sum_wrap (long_bits : Z) (arr : list Z) :
  0 < long_bits -> mean_sum long_bits arr = wrap long_bits (sum_of arr).
Proof.
  intros Hw. unfold mean_sum, long_wrap.
  replace (sum_of arr) with (0 + sum_of arr) by lia.
  rewrite <- (fold_left_wrap_add long_bits arr 0).
  destruct arr as [| x arr _] using rev_ind.
  - simpl. symmetry. apply wrap_zero, Hw.
  - rewrite fold_left_app. simpl. symmetry. apply wrap_idem, Hw.
Qed.

Lemma sample_sum_fits (arr : list Z) :
  is_sample arr -> - 2 ^ 62 <= sum_of arr < 2 ^ 62.
Proof.
  intros [Hf Hn]. pose proof (sum_of_bounds arr Hf) as Hb.
  unfold INT_MIN, INT_MAX in *.
  change (2 ^ 31) with 2147483648 in *.
  change (2 ^ 62) with 4611686018427387904.
  nia.
Qed.

Lemma mean_sum_exact (long_bits : Z) (arr : list Z) :
  64 <= long_bits -> is_sample arr -> mean_sum long_bits arr = sum_of arr.
Proof.
  intros Hw Hs. rewrite mean_sum_wrap by lia.
  apply wrap_small; [lia |].
  pose proof (sample_sum_fits arr Hs) as Hb.
  assert (Hp : 2 ^ 63 <= 2 ^ (long_bits - 1)) by (apply Z.pow_le_mono_r; lia).
  change (2 ^ 62) with 4611686018427387904 in Hb.
  change (2 ^ 63) with 9223372036854775808 in Hp. lia.
Qed.

Lemma is_sample_firstn (k : nat) (arr : list Z) :
  is_sample arr -> is_sample (firstn k arr).
Proof.
  intros [Hf Hn]. split.
  - apply Forall_take. exact Hf.
  - rewrite length_firstn. lia.
Qed.

Lemma is_sample_perm (a b : list Z) :
  Permutation a b -> is_sample a -> is_sample b.
Proof.
  intros Hp [Hf Hn]. split.
  - rewrite <- Hp. exact Hf.
  - rewrite <- (Permutation_length Hp). exact Hn.
Qed.

Lemma mean_perm (long_bits : Z) (a b : list Z) :
  0 < long_bits -> Permutation a b ->
  calculate_mean long_bits a = calculate_mean long_bits b.
Proof.
  intros Hw Hp. unfold calculate_mean.
  rewrite !mean_sum_wrap by exact Hw.
  rewrite (Permutation_length Hp), (sum_of_perm a b Hp). reflexivity.
Qed.

(** ** Mode: the two passes as run-length scans *)

Lemma max_run_max (c m : Z) (r : list (Z * Z)) :
  max_run (Z.max c m) r = Z.max c (max_run m r).
Proof. induction r as [| p r IH]; simpl; [reflexivity | rewrite IH; lia]. Qed.

Lemma max_run_ge (m : Z) (r : list (Z * Z)) :
  m <= max_run m r /\ forall p, In p r -> snd p <= max_run m r.
Proof.
  induction r as [| q r [IH1 IH2]]; simpl.
  - split; [lia | intros p []].
  - split; [lia |]. intros p [-> | Hp]; [lia |].
    specialize (IH2 p Hp). lia.
Qed.

Lemma max_run_attained (m : Z) (r : list (Z * Z)) :
  max_run m r = m \/ exists p, In p r /\ snd p = max_run m r.
Proof.
  induction r as [| q r IH]; simpl; [left; reflexivity |].
  destruct (Z.max_spec (snd q) (max_run m r)) as [[_ E] | [_ E]]; rewrite E.
  - destruct IH as [IH | [p [Hp Ep]]]; [left; exact IH | right].
    exists p. split; [right; exact Hp | exact Ep].
  - right. exists q. split; [left; reflexivity | reflexivity].
Qed.

Lemma runs_from_positive (xs : list Z) (v c : Z) :
  1 <= c -> forall p, In p (runs_from v c xs) -> 1 <= snd p.
Proof.
  revert v c. induction xs as [| x xs IH]; intros v c Hc p; simpl.
  - intros [<- | []]. exact Hc.
  - destruct (x =? v).
    + apply IH. lia.
    + intros [<- | Hp]; [exact Hc | apply (IH x 1); [lia | exact Hp]].
Qed.

Lemma runs_from_nonempty (xs : list Z) (v c : Z) : runs_from v c xs <> [].
Proof.
  revert v c. induction xs as [| x xs IH]; intros v c; simpl; [discriminate |].
  destruct (x =? v); [apply IH | discriminate].
Qed.

Lemma runs_from_length (xs : list Z) (v c : Z) :
  (length (runs_from v c xs) <= S (length xs))%nat.
Proof.
  revert v c. induction xs as [| x xs IH]; intros v c; simpl; [lia |].
  destruct (x =? v); simpl.
  - specialize (IH v (c + 1)). lia.
  - specialize (IH x 1). lia.
Qed.

(** First pass = largest run length. *)
Lemma pass1_fold (xs : list Z) (m c v : Z) :
  1 <= c -> c + Z.of_nat (length xs) <= INT_MAX ->
  pass1_final (fold_left pass1_step xs (m, c, v)) = max_run m (runs_from v c xs).
Proof.
  revert m c v. induction xs as [| x xs IH]; intros m c v Hc Hn.
  - simpl. rewrite Z.gtb_ltb. destruct (Z.ltb_spec m c); lia.
  - cbn [fold_left runs_from pass1_step length] in *.
    rewrite Nat2Z.inj_succ in Hn.
    destruct (x =? v).
    + rewrite int_wrap_small by (unfold is_int, INT_MIN, INT_MAX in *; lia).
      apply IH; lia.
    + rewrite IH by lia. cbn [max_run fold_right snd]. fold (max_run m (runs_from x 1 xs)).
      rewrite <- max_run_max. f_equal.
      rewrite Z.gtb_ltb. destruct (Z.ltb_spec m c); lia.
Qed.

Lemma take_store (a : list Z) (k v : Z) :
  0 <= k -> (Z.to_nat k < length a)%nat ->
  firstn (Z.to_nat (k + 1)) (store a k v) = firstn (Z.to_nat k) a ++ [v].
Proof.
  intros Hk Hlt. unfold store.
  replace (Z.to_nat (k + 1)) with (S (Z.to_nat k)) by lia.
  rewrite (take_S_r _ _ v) by (apply list_lookup_insert_eq; exact Hlt).
  rewrite take_insert_ge by lia. reflexivity.
Qed.

(** Second pass = values of the runs of the given length, written to the
    first free cells of [temp_modes]; no store falls outside the buffer. *)
Lemma pass2_fold (M : Z) (xs : list Z) (temp : list Z) (k c v : Z) :
  0 <= k -> 1 <= c -> c + Z.of_nat (length xs) <= INT_MAX ->
  k + 1 + Z.of_nat (length xs) <= Z.of_nat (length temp) ->
  Z.of_nat (length temp) <= INT_MAX ->
  let res := pass2_final M (fold_left (pass2_step M) xs (temp, k, c, v)) in
  snd res = k + Z.of_nat (length (runs_of_length M (runs_from v c xs))) /\
  firstn (Z.to_nat (snd res)) (fst res) =
    firstn (Z.to_nat k) temp ++ runs_of_length M (runs_from v c xs) /\
  length (fst res) = length temp.
Proof.
  cbv zeta.
  revert temp k c v. induction xs as [| x xs IH]; intros temp k c v Hk Hc Hn Hb Ht.
  - unfold runs_of_length.
    cbn [fold_left pass2_final runs_from List.filter length snd] in *.
    destruct (c =? M); cbn [fst snd map length].
    + rewrite int_wrap_small by (unfold is_int, INT_MIN, INT_MAX in *; lia).
      split; [lia |]. split; [apply take_store; lia |].
      unfold store. apply length_insert.
    + split; [lia |]. split; [rewrite app_nil_r; reflexivity | reflexivity].
  - cbn [fold_left runs_from pass2_step length] in *.
    rewrite Nat2Z.inj_succ in Hn, Hb.
    destruct (x =? v).
    + rewrite int_wrap_small by (unfold is_int, INT_MIN, INT_MAX in *; lia).
      apply IH; lia.
    + unfold runs_of_length. cbn [List.filter snd].
      destruct (c =? M); cbn [map fst length].
      * rewrite int_wrap_small by (unfold is_int, INT_MIN, INT_MAX in *; lia).
        assert (Hl : length (store temp k v) = length temp)
          by (unfold store; apply length_insert).
        specialize (IH (store temp k v) (k + 1) 1 x).
        rewrite Hl in IH.
        destruct IH as (IH1 & IH2 & IH3); try lia.
        fold (runs_of_length M (runs_from x 1 xs)).
        split; [rewrite IH1; lia |].
        split; [| exact IH3].
        rewrite IH2, take_store by lia. rewrite <- app_assoc. reflexivity.
      * apply IH; lia.
Qed.

(** On a non-empty array whose length is an [int], the scan returns the
    values of the longest runs and that longest length. *)
Lemma mode_scan_runs (s : list Z) :
  s <> [] -> Z.of_nat (length s) <= INT_MAX ->
  mode_scan s (Z.of_nat (length s)) =
    {| modes := runs_of_length (max_run 1 (runs s)) (runs s);
       count := Z.of_nat (length (runs_of_length (max_run 1 (runs s)) (runs s)));
       frequency := max_run 1 (runs s) |}.
Proof.
  intros Hne Hn. destruct s as [| v xs]; [congruence |]. clear Hne.
  cbn [length] in Hn. rewrite Nat2Z.inj_succ in Hn.
  unfold mode_scan, pass1, pass2. cbn [tail runs].
  change (at_index (v :: xs) 0) with v.
  rewrite pass1_fold by lia.
  set (M := max_run 1 (runs_from v 1 xs)).
  set (temp := replicate (Z.to_nat (Z.of_nat (length (v :: xs)))) 0).
  assert (Ht : length temp = S (length xs)).
  { unfold temp. rewrite length_replicate, Nat2Z.id. reflexivity. }
  destruct (pass2_fold M xs temp 0 1 v) as (H1 & H2 & _); try lia.
  destruct (pass2_final M (fold_left (pass2_step M) xs (temp, 0, 1, v)))
    as [temp' k'].
  cbn [fst snd] in H1, H2. rewrite H2. cbn [Z.to_nat firstn app].
  f_equal. lia.
Qed.

(** ** Multiplicities *)

Lemma mult_nonneg (x : Z) (l : list Z) : 0 <= mult x l.
Proof. unfold mult. lia. Qed.

Lemma mult_cons (a x : Z) (l : list Z) :
  mult a (x :: l) = mult a l + (if a =? x then 1 else 0).
Proof.
  unfold mult. destruct (Z.eqb_spec a x) as [-> | Hne].
  - rewrite count_occ_cons_eq by reflexivity. lia.
  - rewrite count_occ_cons_neq by congruence. lia.
Qed.

Lemma mult_not_in (x : Z) (l : list Z) : ~ In x l -> mult x l = 0.
Proof.
  intros H. unfold mult.
  apply (proj1 (count_occ_not_In Z.eq_dec l x)) in H. rewrite H. reflexivity.
Qed.

Lemma mult_in (x : Z) (l : list Z) : In x l -> 1 <= mult x l.
Proof.
  intros H. unfold mult.
  apply (proj1 (count_occ_In Z.eq_dec l x)) in H. lia.
Qed.

Lemma mult_perm (x : Z) (l1 l2 : list Z) :
  Permutation l1 l2 -> mult x l1 = mult x l2.
Proof.
  intros Hp. unfold mult. f_equal.
  apply (proj1 (Permutation_count_occ Z.eq_dec l1 l2) Hp).
Qed.

Lemma max_over_spec (f : Z -> Z) (d : list Z) :
  let m := fold_right (fun x acc => Z.max (f x) acc) 0 d in
  0 <= m /\ (forall x, In x d -> f x <= m) /\
  (m = 0 \/ exists x, In x d /\ f x = m).
Proof.
  induction d as [| y d (IH0 & IH1 & IH2)]; cbn [fold_right].
  - split; [lia |]. split; [intros x [] | left; reflexivity].
  - set (m := fold_right (fun x acc => Z.max (f x) acc) 0 d) in *.
    split; [lia |]. split.
    + intros x [-> | Hx]; [lia | specialize (IH1 x Hx); lia].
    + destruct (Z.max_spec (f y) m) as [[_ E] | [_ E]]; rewrite E.
      * destruct IH2 as [IH2 | (x & Hx & Ex)]; [left; exact IH2 | right].
        exists x. split; [right; exact Hx | exact Ex].
      * right. exists y. split; [left; reflexivity | reflexivity].
Qed.

Lemma max_mult_ge (x : Z) (l : list Z) : mult x l <= max_mult l.
Proof.
  destruct (in_dec Z.eq_dec x l) as [Hin | Hout].
  - apply (max_over_spec (fun x => mult x l) l). exact Hin.
  - rewrite mult_not_in by exact Hout.
    apply (max_over_spec (fun x => mult x l) l).
Qed.

Lemma max_mult_attained (l : list Z) :
  l <> [] -> exists x, In x l /\ mult x l = max_mult l.
Proof.
  intros Hne.
  destruct (max_over_spec (fun x => mult x l) l) as (_ & H1 & [H2 | H2]);
    [| exact H2].
  destruct l as [| y l]; [congruence |].
  exists y. split; [left; reflexivity |].
  fold (max_mult (y :: l)) in H1, H2.
  pose proof (mult_in y (y :: l) ltac:(left; reflexivity)).
  pose proof (max_mult_ge y (y :: l)). lia.
Qed.

(** The largest multiplicity is the only bound that is attained. *)
Lemma max_mult_unique (l : list Z) (M : Z) :
  (forall x, In x l -> mult x l <= M) ->
  (exists x, In x l /\ mult x l = M) ->
  max_mult l = M.
Proof.
  intros Hub (x & Hx & Ex).
  assert (Hne : l <> []) by (intros ->; destruct Hx).
  destruct (max_mult_attained l Hne) as (y & Hy & Ey).
  pose proof (max_mult_ge x l). specialize (Hub y Hy). lia.
Qed.

Lemma max_mult_perm (l1 l2 : list Z) :
  Permutation l1 l2 -> max_mult l1 = max_mult l2.
Proof.
  intros Hp. destruct l2 as [| y l2].
  - apply Permutation_nil_r in Hp. subst. reflexivity.
  - apply max_mult_unique.
    + intros x _. rewrite (mult_perm x l1 _ Hp). apply max_mult_ge.
    + destruct (max_mult_attained (y :: l2) ltac:(discriminate)) as (x & Hx & Ex).
      exists x. split.
      * apply (Permutation_in _ (Permutation_sym Hp)). exact Hx.
      * rewrite (mult_perm x l1 _ Hp). exact Ex.
Qed.

(** ** Runs of an ascending array *)

Lemma runs_from_values (xs : list Z) (v c : Z) (p : Z * Z) :
  In p (runs_from v c xs) -> fst p = v \/ In (fst p) xs.
Proof.
  revert v c. induction xs as [| x xs IH]; intros v c; simpl.
  - intros [<- | []]. left. reflexivity.
  - destruct (Z.eqb_spec x v) as [-> | Hne].
    + intros H. destruct (IH _ _ H); auto.
    + intros [<- | H]; [left; reflexivity |].
      destruct (IH _ _ H) as [E | E]; auto.
Qed.

Lemma runs_from_covers (xs : list Z) (v c y : Z) :
  y = v \/ In y xs -> In y (map fst (runs_from v c xs)).
Proof.
  revert v c. induction xs as [| x xs IH]; intros v c; simpl.
  - intros [-> | []]. left. reflexivity.
  - destruct (Z.eqb_spec x v) as [-> | Hne].
    + intros [-> | [-> | H]]; apply IH; auto.
    + intros [-> | [-> | H]]; simpl; auto.
Qed.

Lemma runs_from_sorted (xs : list Z) (v c : Z) :
  StronglySorted Z.le (v :: xs) ->
  (forall p, In p (runs_from v c xs) ->
             snd p = mult (fst p) xs + (if fst p =? v then c else 0)) /\
  StronglySorted Z.lt (map fst (runs_from v c xs)).
Proof.
  revert v c. induction xs as [| x xs IH]; intros v c Hs.
  - simpl. split.
    + intros p [<- | []]. simpl. rewrite Z.eqb_refl. reflexivity.
    + repeat constructor.
  - apply StronglySorted_inv in Hs as [Hs Hv].
    apply Forall_cons_1 in Hv as [Hvx Hv].
    apply StronglySorted_inv in Hs as Hs'. destruct Hs' as [Hs' Hx].
    rewrite List.Forall_forall in Hv, Hx.
    cbn [runs_from]. destruct (Z.eqb_spec x v) as [-> | Hne].
    + destruct (IH v (c + 1)) as [IH1 IH2].
      { constructor; [exact Hs' | rewrite List.Forall_forall; exact Hv]. }
      split; [| exact IH2].
      intros p Hp. rewrite (IH1 p Hp), mult_cons.
      destruct (fst p =? v); lia.
    + destruct (IH x 1 Hs) as [IH1 IH2].
      assert (Hge : forall p, In p (runs_from x 1 xs) -> v < fst p).
      { intros p Hp. destruct (runs_from_values _ _ _ _ Hp) as [E | E].
        - lia.
        - specialize (Hx _ E). lia. }
      split.
      * intros p [<- | Hp]; cbn [fst snd].
        -- rewrite Z.eqb_refl, mult_not_in; [lia |].
           intros [E | E]; [lia | specialize (Hx _ E); lia].
        -- specialize (Hge p Hp). rewrite (IH1 p Hp), mult_cons.
           destruct (Z.eqb_spec (fst p) v); [lia |].
           destruct (fst p =? x); lia.
      * cbn [map fst]. constructor; [exact IH2 |].
        rewrite List.Forall_forall. intros y Hy.
        apply List.in_map_iff in Hy as (p & <- & Hp). apply Hge, Hp.
Qed.

Lemma runs_values (s : list Z) (y : Z) : In y s <-> In y (map fst (runs s)).
Proof.
  destruct s as [| v xs]; [reflexivity |]. cbn [runs]. split.
  - intros [<- | H]; apply runs_from_covers; auto.
  - intros H. apply List.in_map_iff in H as (p & <- & Hp).
    destruct (runs_from_values _ _ _ _ Hp) as [E | E]; [left; auto | right; auto].
Qed.

Lemma runs_mult (s : list Z) (p : Z * Z) :
  StronglySorted Z.le s -> In p (runs s) -> snd p = mult (fst p) s.
Proof.
  destruct s as [| v xs]; [intros _ [] |]. cbn [runs]. intros Hs Hp.
  destruct (runs_from_sorted xs v 1 Hs) as [H _].
  rewrite (H p Hp), mult_cons. destruct (fst p =? v); lia.
Qed.

Lemma runs_ascending (s : list Z) :
  StronglySorted Z.le s -> StronglySorted Z.lt (map fst (runs s)).
Proof.
  destruct s as [| v xs]; [constructor |]. cbn [runs]. intros Hs.
  apply (runs_from_sorted xs v 1 Hs).
Qed.

Lemma runs_positive (s : list Z) (p : Z * Z) : In p (runs s) -> 1 <= snd p.
Proof.
  destruct s as [| v xs]; [intros [] |]. apply runs_from_positive. lia.
Qed.

(** Some run has the largest length (any array, sorted or not). *)
Lemma max_run_runs_attained (s : list Z) :
  s <> [] -> exists p, In p (runs s) /\ snd p = max_run 1 (runs s).
Proof.
  intros Hne. destruct (max_run_attained 1 (runs s)) as [E | H]; [| exact H].
  destruct s as [| v xs]; [congruence |].
  destruct (runs (v :: xs)) as [| p r] eqn:Er.
  - exfalso. exact (runs_from_nonempty xs v 1 Er).
  - exists p. split; [left; reflexivity |].
    pose proof (runs_positive (v :: xs) p) as H1. rewrite Er in H1.
    specialize (H1 ltac:(left; reflexivity)).
    pose proof (proj2 (max_run_ge 1 (p :: r)) p ltac:(left; reflexivity)). lia.
Qed.

(** On an ascending array the longest run length is the largest
    multiplicity. *)
Lemma max_run_max_mult (s : list Z) :
  s <> [] -> StronglySorted Z.le s -> max_run 1 (runs s) = max_mult s.
Proof.
  intros Hne Hs. symmetry. apply max_mult_unique.
  - intros x Hx. apply runs_values in Hx.
    apply List.in_map_iff in Hx as (p & <- & Hp).
    rewrite <- (runs_mult s p Hs Hp). apply max_run_ge, Hp.
  - destruct (max_run_runs_attained s Hne) as (p & Hp & Ep).
    exists (fst p). split.
    + apply runs_values, in_map, Hp.
    + rewrite <- (runs_mult s p Hs Hp). exact Ep.
Qed.

Lemma in_runs_of_length (M : Z) (r : list (Z * Z)) (v : Z) :
  In v (runs_of_length M r) <-> exists p, In p r /\ fst p = v /\ snd p = M.
Proof.
  unfold runs_of_length. rewrite List.in_map_iff. split.
  - intros (p & E & Hp). apply List.filter_In in Hp as [Hp Ep].
    exists p. split; [exact Hp | split; [exact E | lia]].
  - intros (p & Hp & E & Ep). exists p. split; [exact E |].
    apply List.filter_In. split; [exact Hp | lia].
Qed.

Lemma runs_of_length_sorted (R : Z -> Z -> Prop) (M : Z) (r : list (Z * Z)) :
  StronglySorted R (map fst r) -> StronglySorted R (runs_of_length M r).
Proof.
  unfold runs_of_length. induction r as [| p r IH]; cbn [map List.filter].
  - intros _. constructor.
  - intros Hs. apply StronglySorted_inv in Hs as [Hs Hf].
    destruct (snd p =? M); cbn [map]; [| apply IH, Hs].
    constructor; [apply IH, Hs |].
    rewrite List.Forall_forall in *. intros y Hy. apply Hf.
    apply List.in_map_iff in Hy as (q & <- & Hq).
    apply List.filter_In in Hq as [Hq _]. apply in_map, Hq.
Qed.

(** ** Mode on an ascending copy *)

Lemma calculate_mode_runs (arr : list Z) :
  is_sample arr -> arr <> [] ->
  let s := qsort compare arr in
  let M := max_run 1 (runs s) in
  calculate_mode arr =
    {| modes := runs_of_length M (runs s);
       count := Z.of_nat (length (runs_of_length M (runs s)));
       frequency := M |}.
Proof.
  intros [_ Hn] Hne. cbv zeta. unfold calculate_mode.
  destruct (Z.eqb_spec (Z.of_nat (length arr)) 0) as [E | _].
  - destruct arr; [congruence | simpl in E; lia].
  - rewrite <- (qsort_length compare arr). apply mode_scan_runs.
    + intros E. apply Hne. apply length_zero_iff_nil.
      rewrite <- (qsort_length compare arr), E. reflexivity.
    + rewrite qsort_length. exact Hn.
Qed.

(** Whatever the sorted copy looks like, a non-empty sample yields at
    least one mode and a frequency of at least one. *)
Lemma calculate_mode_nonempty (arr : list Z) :
  is_sample arr -> arr <> [] ->
  modes (calculate_mode arr) <> [] /\ 1 <= frequency (calculate_mode arr) /\
  count (calculate_mode arr) = Z.of_nat (length (modes (calculate_mode arr))).
Proof.
  intros Hs Hne. rewrite (calculate_mode_runs arr Hs Hne). cbn [modes frequency count].
  assert (Hq : qsort compare arr <> []).
  { intros E. apply Hne. apply length_zero_iff_nil.
    rewrite <- (qsort_length compare arr), E. reflexivity. }
  split; [| split; [apply max_run_ge | reflexivity]].
  destruct (max_run_runs_attained _ Hq) as (p & Hp & Ep).
  intros E.
  assert (Hin : In (fst p) (runs_of_length (max_run 1 (runs (qsort compare arr)))
                              (runs (qsort compare arr)))).
  { apply in_runs_of_length. exists p. auto. }
  rewrite E in Hin. destruct Hin.
Qed.

(** When the differences of the sample fit in an [int], the mode is what
    the specification says: the largest multiplicity, the values attaining
    it, each once, in ascending order. *)
Lemma calculate_mode_correct (arr : list Z) :
  is_sample arr -> diff_fits arr ->
  frequency (calculate_mode arr) = max_mult arr /\
  (forall v, In v (modes (calculate_mode arr)) <->
             In v arr /\ mult v arr = max_mult arr) /\
  StronglySorted Z.lt (modes (calculate_mode arr)) /\
  count (calculate_mode arr) = Z.of_nat (length (modes (calculate_mode arr))).
Proof.
  intros Hs Hd. destruct arr as [| a arr].
  - cbn. split; [reflexivity |]. split; [| split; [constructor | reflexivity]].
    intros v. split; [intros [] | intros [[] _]].
  - set (A := a :: arr) in *.
    assert (Hne : A <> []) by discriminate.
    rewrite (calculate_mode_runs A Hs Hne). cbn [modes frequency count].
    destruct (qsort_ascending A Hd) as [Hasc Hperm].
    set (s := qsort compare A) in *.
    assert (Hsne : s <> []).
    { intros E. rewrite E in Hperm. apply Permutation_nil in Hperm. congruence. }
    rewrite (max_run_max_mult s Hsne Hasc).
    rewrite (max_mult_perm s A Hperm).
    split; [reflexivity |]. split; [| split; [| reflexivity]].
    + intros v. rewrite in_runs_of_length. split.
      * intros (p & Hp & <- & Ep).
        rewrite (runs_mult s p Hasc Hp), (mult_perm _ s A Hperm) in Ep.
        split; [| exact Ep].
        apply (Permutation_in _ Hperm), runs_values, in_map, Hp.
      * intros [Hv Ev].
        apply (Permutation_in _ (Permutation_sym Hperm)), runs_values in Hv.
        apply List.in_map_iff in Hv as (p & <- & Hp).
        exists p. split; [exact Hp | split; [reflexivity |]].
        rewrite (runs_mult s p Hasc Hp), (mult_perm _ s A Hperm). exact Ev.
    + apply runs_of_length_sorted, runs_ascending, Hasc.
Qed.

(** In particular, when all values are equally frequent, every value of
    the sample is a mode. *)
Lemma calculate_mode_all_tied (arr : list Z) :
  is_sample arr -> diff_fits arr ->
  (forall x y, In x arr -> In y arr -> mult x arr = mult y arr) ->
  forall v, In v arr -> In v (modes (calculate_mode arr)).
Proof.
  intros Hs Hd Htie v Hv.
  destruct (calculate_mode_correct arr Hs Hd) as (_ & Hm & _).
  apply Hm. split; [exact Hv |].
  assert (Hne : arr <> []) by (intros ->; destruct Hv).
  destruct (max_mult_attained arr Hne) as (x & Hx & Ex).
  rewrite <- Ex. apply Htie; assumption.
Qed.

(** ** Median on an ascending copy *)

Lemma diff_fits_perm (a b : list Z) :
  Permutation a b -> diff_fits a -> diff_fits b.
Proof.
  intros Hp Hd x y Hx Hy.
  apply Hd; apply (Permutation_in _ (Permutation_sym Hp)); assumption.
Qed.

Lemma qsort_compare_ascending_eq (arr s : list Z) :
  diff_fits arr -> Permutation s arr -> StronglySorted Z.le s ->
  qsort compare arr = s.
Proof.
  intros Hd Hp Hs. destruct (qsort_ascending arr Hd) as [Ha Hq].
  apply ascending_unique; [rewrite Hq, Hp; reflexivity | exact Ha | exact Hs].
Qed.

Lemma median_select_ascending (s : list Z) :
  s <> [] ->
  is_int (at_index s (Z.quot (Z.of_nat (length s)) 2 - 1)
          + at_index s (Z.quot (Z.of_nat (length s)) 2)) ->
  median_select s (Z.of_nat (length s)) = median_of_ascending s.
Proof.
  intros Hne Hsum. unfold median_select, median_of_ascending, at_index in *.
  set (n := length s) in *.
  assert (Hn : (0 < n)%nat) by (subst n; destruct s; [congruence | simpl; lia]).
  assert (Hq : Z.quot (Z.of_nat n) 2 = Z.of_nat (n / 2)).
  { rewrite Z.quot_div_nonneg by lia. rewrite Nat2Z.inj_div. reflexivity. }
  rewrite Hq in *. rewrite Nat2Z.id in *.
  assert (Hr : (Z.rem (Z.of_nat n) 2 =? 0) = Nat.even n).
  { rewrite Z.rem_mod_nonneg by lia.
    destruct (Nat.even n) eqn:Ev.
    - apply Nat.even_spec in Ev. destruct Ev as [k ->].
      apply Z.eqb_eq. rewrite Nat2Z.inj_mul. simpl (Z.of_nat 2).
      rewrite Z.mul_comm. apply Z_mod_mult.
    - apply Z.eqb_neq. rewrite <- Nat.negb_odd in Ev.
      apply Bool.negb_false_iff, Nat.odd_spec in Ev. destruct Ev as [k ->].
      rewrite Nat2Z.inj_add, Nat2Z.inj_mul. simpl (Z.of_nat 2). simpl (Z.of_nat 1).
      rewrite Z.add_comm, Z.mul_comm, Z_mod_plus_full. discriminate. }
  rewrite Hr. destruct (Nat.even n) eqn:Ev; [| reflexivity].
  assert (Hn2 : (2 <= n)%nat).
  { destruct n as [| [| n']]; [lia | discriminate | lia]. }
  assert (H2 : (1 <= n / 2)%nat) by (apply Nat.div_le_lower_bound; lia).
  replace (Z.to_nat (Z.of_nat (n / 2) - 1)) with (n / 2 - 1)%nat in * by lia.
  rewrite int_wrap_small by exact Hsum. reflexivity.
Qed.

(** When the differences of the sample fit in an [int] and the two middle
    elements can be added in an [int], the median is the one of the
    specification. *)
Lemma calculate_median_correct (arr s : list Z) :
  arr <> [] -> diff_fits arr ->
  Permutation s arr -> StronglySorted Z.le s ->
  is_int (at_index s (Z.quot (Z.of_nat (length s)) 2 - 1)
          + at_index s (Z.quot (Z.of_nat (length s)) 2)) ->
  calculate_median arr = median_of_ascending s.
Proof.
  intros Hne Hd Hp Hs Hsum. unfold calculate_median.
  destruct (Z.eqb_spec (Z.of_nat (length arr)) 0) as [E | _].
  - destruct arr; [congruence | simpl in E; lia].
  - rewrite (qsort_compare_ascending_eq arr s Hd Hp Hs).
    rewrite <- (Permutation_length Hp).
    apply median_select_ascending; [| exact Hsum].
    intros E. rewrite E in Hp. apply Permutation_nil in Hp. congruence.
Qed.

Lemma median_perm (a b : list Z) :
  diff_fits a -> Permutation a b -> calculate_median a = calculate_median b.
Proof.
  intros Hd Hp. unfold calculate_median.
  rewrite (Permutation_length Hp).
  destruct (Z.of_nat (length b) =? 0); [reflexivity |].
  destruct (qsort_ascending b (diff_fits_perm a b Hp Hd)) as [Hs Hq].
  rewrite (qsort_compare_ascending_eq a (qsort compare b) Hd); [reflexivity | | exact Hs].
  rewrite Hq. symmetry. exact Hp.
Qed.

(** ** The calculators on memory *)

Lemma malloc_fresh (n : Z) (h : heap) : h !! fst (malloc n h) = None.
Proof. apply not_elem_of_dom. unfold malloc. simpl. apply is_fresh. Qed.

Lemma read_array_all (data : list Z) (n : Z) (p : nat) (h : heap) :
  h !! p = Some data -> n = Z.of_nat (length data) -> read_array p n h = data.
Proof.
  intros H ->. unfold read_array, load. rewrite H. simpl.
  rewrite Nat2Z.id. apply firstn_all.
Qed.

Lemma write_array_all (p : nat) (n : Z) (old data : list Z) (h : heap) :
  h !! p = Some old -> length old = length data -> n = Z.of_nat (length data) ->
  write_array p n data h = <[p := data]> h.
Proof.
  intros H E ->. unfold write_array. rewrite H, Nat2Z.id.
  rewrite firstn_all, <- E, skipn_all, app_nil_r. reflexivity.
Qed.

(** Copying a whole array into a fresh block and sorting the copy. *)
Lemma sorted_copy_heap (arr : nat) (data : list Z) (h : heap) :
  h !! arr = Some data ->
  let size := Z.of_nat (length data) in
  let p := fst (malloc size h) in
  qsort_mem p size compare (memcpy p arr size (snd (malloc size h)))
  = <[p := qsort compare data]> h /\ h !! p = None /\ p <> arr.
Proof.
  intros Ha size p.
  assert (Hp : h !! p = None) by apply malloc_fresh.
  assert (Hpa : p <> arr) by congruence.
  split; [| split; assumption].
  unfold malloc. cbn [snd]. change (fresh (dom h)) with p.
  unfold memcpy, qsort_mem.
  rewrite (read_array_all data size arr);
    [| rewrite lookup_insert_ne by exact Hpa; exact Ha | reflexivity].
  rewrite (write_array_all p size (replicate (Z.to_nat size) 0) data);
    [| apply lookup_insert_eq
     | rewrite length_replicate; unfold size; apply Nat2Z.id | reflexivity].
  rewrite insert_insert_eq.
  rewrite (read_array_all data size p); [| apply lookup_insert_eq | reflexivity].
  rewrite (write_array_all p size data (qsort compare data));
    [| apply lookup_insert_eq | symmetry; apply qsort_length
     | unfold size; rewrite qsort_length; reflexivity].
  apply insert_insert_eq.
Qed.

Lemma calculate_mean_mem_spec (long_bits : Z) (arr : nat) (data : list Z) (h : heap) :
  h !! arr = Some data ->
  calculate_mean_mem long_bits arr (Z.of_nat (length data)) h
  = (calculate_mean long_bits data, h).
Proof.
  intros Ha. unfold calculate_mean_mem, calculate_mean.
  destruct (Z.of_nat (length data) =? 0); [reflexivity |].
  rewrite (read_array_all data _ arr h Ha) by reflexivity. reflexivity.
Qed.

Lemma calculate_median_mem_spec (arr : nat) (data : list Z) (h : heap) :
  h !! arr = Some data ->
  calculate_median_mem arr (Z.of_nat (length data)) h
  = (calculate_median data, h).
Proof.
  intros Ha. unfold calculate_median_mem, calculate_median.
  destruct (Z.of_nat (length data) =? 0); [reflexivity |].
  destruct (sorted_copy_heap arr data h Ha) as (Hq & Hp & Hpa).
  cbv zeta in Hq, Hp, Hpa.
  destruct (malloc (Z.of_nat (length data)) h) as [p h1] eqn:Em.
  cbn [fst snd] in Hq, Hp, Hpa. rewrite Hq.
  rewrite (read_array_all (qsort compare data) _ p);
    [| apply lookup_insert_eq | rewrite qsort_length; reflexivity].
  f_equal. unfold free. apply delete_insert_id. exact Hp.
Qed.

Lemma calculate_mode_mem_spec (arr : nat) (data : list Z) (h : heap) :
  h !! arr = Some data -> data <> [] ->
  exists r,
    h !! r = None /\
    calculate_mode_mem arr (Z.of_nat (length data)) h
    = ({| modes_ptr := Some r;
          count_mem := count (calculate_mode data);
          frequency_mem := frequency (calculate_mode data) |},
       <[r := modes (calculate_mode data)]> h).
Proof.
  intros Ha Hne. unfold calculate_mode_mem, calculate_mode.
  destruct (Z.eqb_spec (Z.of_nat (length data)) 0) as [E | _].
  { destruct data; [congruence | simpl in E; lia]. }
  set (size := Z.of_nat (length data)).
  destruct (sorted_copy_heap arr data h Ha) as (Hq & Hp & Hpa).
  cbv zeta in Hq, Hp, Hpa. fold size in Hq, Hp, Hpa.
  destruct (malloc size h) as [p h1] eqn:Em.
  cbn [fst snd] in Hq, Hp, Hpa. cbv zeta. rewrite Hq.
  set (sorted := qsort compare data).
  set (h3 := <[p := sorted]> h).
  pose proof (malloc_fresh size h3) as Ht.
  unfold malloc at 1. cbn [fst] in Ht. unfold malloc in Ht. cbn [fst] in Ht.
  set (t := fresh (dom h3)) in *.
  assert (Htp : t <> p).
  { intros ->. unfold h3 in Ht. rewrite lookup_insert_eq in Ht. discriminate. }
  assert (Hth : h !! t = None).
  { unfold h3 in Ht. rewrite lookup_insert_ne in Ht by congruence. exact Ht. }
  set (h4 := <[t := replicate (Z.to_nat size) 0]> h3).
  assert (Rs : read_array p size h4 = sorted).
  { apply read_array_all.
    - unfold h4, h3. rewrite lookup_insert_ne by exact Htp. apply lookup_insert_eq.
    - unfold sorted, size. rewrite qsort_length. reflexivity. }
  assert (Rt : load t h4 = replicate (Z.to_nat size) 0).
  { unfold load, h4. rewrite lookup_insert_eq. reflexivity. }
  assert (Rs3 : read_array p size h3 = sorted).
  { apply read_array_all.
    - unfold h3. apply lookup_insert_eq.
    - unfold sorted, size. rewrite qsort_length. reflexivity. }
  rewrite Rs3, Rs, Rt. unfold mode_scan.
  destruct (pass2 (pass1 sorted) sorted (replicate (Z.to_nat size) 0))
    as [temp k].
  cbn [modes count frequency].
  set (h5 := <[t := temp]> h4).
  pose proof (malloc_fresh k h5) as Hr.
  unfold malloc at 1. unfold malloc in Hr. cbn [fst] in Hr.
  set (r := fresh (dom h5)) in *.
  assert (Hrt : r <> t).
  { intros ->. unfold h5 in Hr. rewrite lookup_insert_eq in Hr. discriminate. }
  assert (Hr4 : h4 !! r = None).
  { unfold h5 in Hr. rewrite lookup_insert_ne in Hr by congruence. exact Hr. }
  assert (Hrp : r <> p).
  { intros ->. unfold h4, h3 in Hr4.
    rewrite lookup_insert_ne, lookup_insert_eq in Hr4 by congruence. discriminate. }
  assert (Hrh : h !! r = None).
  { unfold h4, h3 in Hr4. rewrite !lookup_insert_ne in Hr4 by congruence. exact Hr4. }
  exists r. split; [exact Hrh |]. f_equal.
  unfold memcpy, write_array, read_array, load, free.
  rewrite lookup_insert_eq, lookup_insert_ne by congruence.
  unfold h5 at 1. rewrite lookup_insert_eq. cbn [default].
  rewrite insert_insert_eq.
  assert (Ek : firstn (Z.to_nat k) (firstn (Z.to_nat k) temp)
               ++ skipn (Z.to_nat k) (replicate (Z.to_nat k) 0)
               = firstn (Z.to_nat k) temp).
  { rewrite skipn_all2 by (rewrite length_replicate; lia).
    rewrite app_nil_r, firstn_firstn, Nat.min_id. reflexivity. }
  unfold id. rewrite Ek. apply map_eq. intros i.
  unfold h5, h4, h3.
  destruct (decide (i = t)) as [-> | Hit].
  { rewrite lookup_delete_eq, lookup_insert_ne by congruence. congruence. }
  rewrite lookup_delete_ne by congruence.
  destruct (decide (i = p)) as [-> | Hip].
  { rewrite lookup_delete_eq, lookup_insert_ne by congruence. congruence. }
  rewrite lookup_delete_ne by congruence.
  destruct (decide (i = r)) as [-> | Hir].
  { rewrite !lookup_insert_eq. reflexivity. }
  rewrite !lookup_insert_ne by congruence. reflexivity.
Qed.

Lemma calculate_mode_mem_empty (arr : nat) (h : heap) :
  calculate_mode_mem arr 0 h
  = ({| modes_ptr := None; count_mem := 0; frequency_mem := 0 |}, h).
Proof. reflexivity. Qed.





(** ** Conversions to [double] that are exact *)

Lemma digits2_pos_bounds (p : positive) :
  2 ^ (Zpos (digits2_pos p) - 1) <= Zpos p < 2 ^ Zpos (digits2_pos p).
Proof.
  induction p as [p IH | p IH |]; cbn [digits2_pos].
  - rewrite Pos2Z.inj_succ. change (Zpos p~1) with (2 * Zpos p + 1).
    replace (Z.succ (Zpos (digits2_pos p)) - 1) with (Z.succ (Zpos (digits2_pos p) - 1)) by lia.
    rewrite !Z.pow_succ_r by lia.
    set (a := 2 ^ (Zpos (digits2_pos p) - 1)) in *.
    set (b := 2 ^ Zpos (digits2_pos p)) in *. clearbody a b. lia.
  - rewrite Pos2Z.inj_succ. change (Zpos p~0) with (2 * Zpos p).
    replace (Z.succ (Zpos (digits2_pos p)) - 1) with (Z.succ (Zpos (digits2_pos p) - 1)) by lia.
    rewrite !Z.pow_succ_r by lia.
    set (a := 2 ^ (Zpos (digits2_pos p) - 1)) in *.
    set (b := 2 ^ Zpos (digits2_pos p)) in *. clearbody a b. lia.
  - simpl. lia.
Qed.

Lemma digits2_pos_iter_xO (p k : positive) :
  digits2_pos (Pos.iter xO p k) = (digits2_pos p + k)%positive.
Proof.
  induction k as [| k IH] using Pos.peano_ind.
  - simpl. lia.
  - rewrite Pos.iter_succ. cbn [digits2_pos]. rewrite IH. lia.
Qed.

Lemma Zpos_iter_xO (p k : positive) :
  Zpos (Pos.iter xO p k) = Zpos p * 2 ^ Zpos k.
Proof.
  induction k as [| k IH] using Pos.peano_ind.
  - simpl. lia.
  - rewrite Pos.iter_succ.
    change (Zpos (Pos.iter xO p k)~0) with (2 * Zpos (Pos.iter xO p k)).
    rewrite IH, Pos2Z.inj_succ, Z.pow_succ_r by lia. lia.
Qed.

Lemma binary_round_small (s : bool) (p : positive) :
  Zpos p < 2 ^ 53 ->
  exists m e, binary_round dprec demax s p 0 = S754_finite s m e /\
              e <= 0 /\ Zpos m = Zpos p * 2 ^ (- e).
Proof.
  intros Hp. pose proof (digits2_pos_bounds p) as Hd.
  set (d := Zpos (digits2_pos p)) in *.
  assert (Hd53 : 1 <= d <= 53).
  { split; [subst d; lia |].
    destruct (Z_le_gt_dec d 53) as [H | H]; [exact H | exfalso].
    assert (2 ^ 53 <= 2 ^ (d - 1)) by (apply Z.pow_le_mono_r; lia). lia. }
  unfold binary_round.
  assert (Ef : fexp dprec demax (d + 0) = d - 53) by (unfold fexp, emin, dprec, demax; lia).
  fold d. rewrite Ef.
  assert (Hsh : exists mz, shl_align p 0 (d - 53) = (mz, d - 53) /\
                 Zpos (digits2_pos mz) = 53 /\ Zpos mz = Zpos p * 2 ^ (53 - d)).
  { unfold shl_align. destruct (d - 53 - 0) as [| k | k] eqn:Ek; try lia.
    - exists p. replace (d - 53) with 0 by lia. replace (53 - d) with 0 by lia.
      split; [reflexivity |]. split; [subst d; lia | simpl; lia].
    - exists (Pos.iter xO p k). split; [reflexivity |]. split.
      + rewrite digits2_pos_iter_xO, Pos2Z.inj_add. fold d. lia.
      + rewrite Zpos_iter_xO. f_equal. f_equal. lia. }
  destruct Hsh as (mz & -> & Hdig & Hval).
  exists mz, (d - 53). split; [| split; [lia | rewrite Hval; f_equal; f_equal; lia]].
  unfold binary_round_aux, shr_fexp.
  cbn [Zdigits2]. rewrite Hdig.
  assert (Ef2 : fexp dprec demax (53 + (d - 53)) - (d - 53) = 0)
    by (unfold fexp, emin, dprec, demax; lia).
  rewrite Ef2. cbn [shr shr_record_of_loc shr_m loc_of_shr_record round_nearest_even Zdigits2].
  rewrite Hdig, Ef2. cbn [shr shr_record_of_loc shr_m].
  assert (El : (d - 53 <=? demax - dprec) = true) by (apply Z.leb_le; unfold demax, dprec; lia).
  rewrite El. reflexivity.
Qed.

Lemma double_of_Z_exact (z : Z) :
  - 2 ^ 53 < z < 2 ^ 53 -> represents (double_of_Z z) z.
Proof.
  intros Hz. unfold double_of_Z, binary_normalize. destruct z as [| p | p].
  - reflexivity.
  - destruct (binary_round_small false p) as (m & e & -> & He & Hm); [lia |].
    split; [exact He | exact Hm].
  - destruct (binary_round_small true p) as (m & e & -> & He & Hm); [lia |].
    split; [exact He |]. rewrite Hm. lia.
Qed.

Lemma represents_number (x : double) (z : Z) : represents x z -> is_number x.
Proof. destruct x; simpl; tauto. Qed.

(** ** Means and medians are numbers *)

Lemma Zdigits2_bound (m k : Z) : 0 <= k -> 0 <= m < 2 ^ k -> Zdigits2 m <= k.
Proof.
  intros Hk Hm. destruct m as [| p | p]; simpl; [lia | | lia].
  pose proof (digits2_pos_bounds p) as Hd.
  destruct (Z_le_gt_dec (Zpos (digits2_pos p)) k) as [H | H]; [exact H | exfalso].
  assert (2 ^ k <= 2 ^ (Zpos (digits2_pos p) - 1)) by (apply Z.pow_le_mono_r; lia).
  lia.
Qed.

Lemma Zdigits2_nonneg (m : Z) : 0 <= Zdigits2 m.
Proof. destruct m; simpl; lia. Qed.

Lemma shr_1_bounds (mrs : shr_record) :
  0 <= shr_m mrs -> 0 <= shr_m (shr_1 mrs) <= shr_m mrs.
Proof.
  destruct mrs as [m r s]. cbn [shr_m shr_1].
  destruct m as [| [p | p |] | [p | p |]]; cbn [shr_m]; lia.
Qed.

Lemma iter_pos_shr_1_bounds (p : positive) (mrs : shr_record) :
  0 <= shr_m mrs -> 0 <= shr_m (SpecFloat.iter_pos shr_1 p mrs) <= shr_m mrs.
Proof.
  revert mrs. induction p as [p IH | p IH |]; intros mrs Hm; cbn [SpecFloat.iter_pos].
  - pose proof (shr_1_bounds mrs Hm) as H1.
    pose proof (IH (shr_1 mrs) ltac:(lia)) as H2.
    pose proof (IH (SpecFloat.iter_pos shr_1 p (shr_1 mrs)) ltac:(lia)) as H3. lia.
  - pose proof (IH mrs Hm) as H2.
    pose proof (IH (SpecFloat.iter_pos shr_1 p mrs) ltac:(lia)) as H3. lia.
  - apply shr_1_bounds, Hm.
Qed.

Lemma shr_m_of_loc (m : Z) (l : location) : shr_m (shr_record_of_loc m l) = m.
Proof. destruct l as [| []]; reflexivity. Qed.

(** One rounding shift: the mantissa does not grow and the exponent moves
    up to at most the canonical one. *)
Lemma shr_fexp_bounds (m e : Z) (l : location) :
  0 <= m ->
  0 <= shr_m (fst (shr_fexp dprec demax m e l)) <= m /\
  e <= snd (shr_fexp dprec demax m e l)
    <= Z.max e (fexp dprec demax (Zdigits2 m + e)).
Proof.
  intros Hm. unfold shr_fexp, shr.
  destruct (fexp dprec demax (Zdigits2 m + e) - e) as [| p | p] eqn:E;
    cbn [fst snd]; rewrite ?shr_m_of_loc; try lia.
  pose proof (iter_pos_shr_1_bounds p (shr_record_of_loc m l)) as H.
  rewrite shr_m_of_loc in H. specialize (H Hm). lia.
Qed.

Lemma round_nearest_even_bounds (m : Z) (l : location) :
  m <= round_nearest_even m l <= m + 1.
Proof.
  unfold round_nearest_even. destruct l as [| []]; try lia.
  destruct (Z.even m); lia.
Qed.

Lemma binary_round_aux_number (sx : bool) (mx ex : Z) (lx : location) :
  0 <= mx < 2 ^ 200 -> -1074 <= ex <= 500 ->
  rounded_from mx ex (binary_round_aux dprec demax sx mx ex lx).
Proof.
  intros Hm He. unfold binary_round_aux.
  pose proof (shr_fexp_bounds mx ex lx ltac:(lia)) as H1.
  destruct (shr_fexp dprec demax mx ex lx) as [mrs' e'] eqn:E1.
  cbn [fst snd] in H1.
  pose proof (round_nearest_even_bounds (shr_m mrs') (loc_of_shr_record mrs')) as Hr.
  set (m1 := round_nearest_even (shr_m mrs') (loc_of_shr_record mrs')) in *.
  pose proof (shr_fexp_bounds m1 e' loc_Exact ltac:(lia)) as H2.
  destruct (shr_fexp dprec demax m1 e' loc_Exact) as [mrs'' e''] eqn:E2.
  cbn [fst snd] in H2.
  assert (Hd : Zdigits2 mx <= 200) by (apply Zdigits2_bound; lia).
  assert (Hd1 : Zdigits2 m1 <= 201).
  { apply Zdigits2_bound; [lia |].
    change (2 ^ 201) with (2 * 2 ^ 200). lia. }
  pose proof (Zdigits2_nonneg mx). pose proof (Zdigits2_nonneg m1).
  unfold fexp, emin, dprec, demax in *.
  destruct (shr_m mrs'') as [| m | m] eqn:Em; cbn [rounded_from]; [exact I | | lia].
  destruct (Z.leb_spec e'' (1024 - 53)) as [Hle | Hgt]; cbn [rounded_from]; lia.
Qed.

Lemma rounded_from_small (mx ex : Z) (x : double) :
  mx < 2 ^ 63 -> -64 <= ex <= 100 -> rounded_from mx ex x -> small_double x.
Proof.
  intros Hm He. destruct x as [s | s | | s m e]; cbn; try tauto.
  change (2 ^ 63) with 9223372036854775808 in Hm.
  change (2 ^ 64) with 18446744073709551616. lia.
Qed.

Lemma binary_round_small_double (s : bool) (p : positive) :
  Zpos p < 2 ^ 63 -> small_double (binary_round dprec demax s p 0).
Proof.
  intros Hp. unfold binary_round.
  pose proof (digits2_pos_bounds p) as Hd.
  set (d := Zpos (digits2_pos p)) in *.
  assert (Hd1 : 1 <= d) by (subst d; lia).
  assert (Ef : fexp dprec demax (d + 0) = Z.max (d - 53) (-1074))
    by (unfold fexp, emin, dprec, demax; f_equal; lia).
  rewrite Ef. unfold shl_align.
  destruct (Z.max (d - 53) (-1074) - 0) as [| k | k] eqn:Ek.
  - apply (rounded_from_small (Zpos p) 0); [exact Hp | lia |].
    apply binary_round_aux_number; [| lia].
    split; [lia |]. assert (2 ^ 63 <= 2 ^ 200) by (apply Z.pow_le_mono_r; lia). lia.
  - apply (rounded_from_small (Zpos p) 0); [exact Hp | lia |].
    apply binary_round_aux_number; [| lia].
    split; [lia |]. assert (2 ^ 63 <= 2 ^ 200) by (apply Z.pow_le_mono_r; lia). lia.
  - assert (Hk : Zpos k = 53 - d) by lia.
    assert (Hv : Zpos (Pos.iter xO p k) < 2 ^ 53).
    { rewrite Zpos_iter_xO, Hk.
      assert (E : 2 ^ 53 = 2 ^ d * 2 ^ (53 - d))
        by (rewrite <- Z.pow_add_r by lia; f_equal; lia).
      rewrite E. apply Z.mul_lt_mono_pos_r; [apply Z.pow_pos_nonneg; lia | lia]. }
    assert (H53 : 2 ^ 53 <= 2 ^ 63) by (apply Z.pow_le_mono_r; lia).
    assert (H63 : 2 ^ 63 <= 2 ^ 200) by (apply Z.pow_le_mono_r; lia).
    apply (rounded_from_small (Zpos (Pos.iter xO p k)) (Z.max (d - 53) (-1074)));
      [lia | lia |].
    apply binary_round_aux_number; lia.
Qed.

Lemma double_of_Z_small (z : Z) :
  - 2 ^ 63 < z < 2 ^ 63 -> small_double (double_of_Z z).
Proof.
  intros Hz. unfold double_of_Z, binary_normalize. destruct z as [| p | p].
  - exact I.
  - apply binary_round_small_double. lia.
  - apply binary_round_small_double. lia.
Qed.

Lemma double_of_Z_finite (z : Z) :
  z <> 0 -> - 2 ^ 53 < z < 2 ^ 53 -> is_finite (double_of_Z z).
Proof.
  intros Hz Hb. pose proof (double_of_Z_exact z Hb) as H.
  destruct (double_of_Z z); cbn in *; tauto.
Qed.

(** The quotient of two moderate doubles by a finite divisor is a number:
    neither infinite nor NaN. *)
Lemma ddiv_number (x y : double) :
  small_double x -> small_double y -> is_finite y -> is_number (ddiv x y).
Proof.
  destruct y as [sy | sy | | sy my ey]; cbn [is_finite]; try tauto.
  destruct x as [sx | sx | | sx mx ex]; cbn [small_double].
  - intros _ _ _. exact I.
  - tauto.
  - tauto.
  - intros [Hmx Hex] [Hmy Hey] _. unfold ddiv, SFdiv.
    destruct (SFdiv_core_binary dprec demax (Zpos mx) ex (Zpos my) ey)
      as [[mz ez] lz] eqn:E.
    assert (Hb : (0 <= mz < 2 ^ 200) /\ -1074 <= ez <= 500).
    { unfold SFdiv_core_binary in E.
      set (D := Zdigits2 (Zpos mx) + ex - (Zdigits2 (Zpos my) + ey)) in *.
      set (e' := Z.min (fexp dprec demax D) (ex - ey)) in *.
      assert (Hd2 : Zdigits2 (Zpos my) <= 64) by (apply Zdigits2_bound; lia).
      pose proof (Zdigits2_nonneg (Zpos mx)) as Hd1.
      assert (He' : -1074 <= e' <= ex - ey /\ ex - ey - e' <= 117).
      { unfold e', fexp, emin, dprec, demax, D. lia. }
      set (m' := match ex - ey - e' with
                 | 0 => Zpos mx
                 | Zpos _ => Z.shiftl (Zpos mx) (ex - ey - e')
                 | Zneg _ => 0
                 end) in *.
      assert (Hm' : 0 <= m' < 2 ^ 200).
      { assert (H64 : 2 ^ 64 * 2 ^ 117 <= 2 ^ 200)
          by (rewrite <- Z.pow_add_r by lia; apply Z.pow_le_mono_r; lia).
        assert (H117 : 0 < 2 ^ 117) by (apply Z.pow_pos_nonneg; lia).
        unfold m'. destruct (ex - ey - e') as [| k | k] eqn:Es.
        - nia.
        - rewrite Z.shiftl_mul_pow2 by lia.
          assert (0 < 2 ^ Zpos k <= 2 ^ 117)
            by (split; [apply Z.pow_pos_nonneg; lia | apply Z.pow_le_mono_r; lia]).
          nia.
        - assert (0 < 2 ^ 200) by (apply Z.pow_pos_nonneg; lia). lia. }
      pose proof (Z_div_mod m' (Zpos my) ltac:(lia)) as Hdm.
      destruct (Z.div_eucl m' (Zpos my)) as [q r].
      inversion E; subst mz ez lz. clear E.
      destruct Hdm as [Hq Hr]. split; [| lia]. nia. }
    destruct Hb as [Hmz Hez].
    pose proof (binary_round_aux_number (xorb sx sy) mz ez lz Hmz Hez) as H.
    destruct (binary_round_aux dprec demax (xorb sx sy) mz ez lz); cbn in *; tauto.
Qed.


Lemma at_index_is_int (l : list Z) (i : Z) : Forall is_int l -> is_int (at_index l i).
Proof.
  intros Hf. unfold at_index.
  destruct (nth_in_or_default (Z.to_nat i) l 0) as [H | ->].
  - rewrite List.Forall_forall in Hf. apply Hf, H.
  - unfold is_int, INT_MIN, INT_MAX. lia.
Qed.

Lemma double_of_int_small (z : Z) : is_int z -> small_double (double_of_Z z).
Proof.
  unfold is_int, INT_MIN, INT_MAX. intros Hz. apply double_of_Z_small.
  change (2 ^ 31) with 2147483648 in Hz.
  change (2 ^ 63) with 9223372036854775808. lia.
Qed.

Lemma mean_sum_small (long_bits : Z) (arr : list Z) :
  0 < long_bits -> is_sample arr ->
  - 2 ^ 63 < mean_sum long_bits arr < 2 ^ 63.
Proof.
  intros Hw Hs. destruct (Z_le_gt_dec 64 long_bits) as [H | H].
  - rewrite (mean_sum_exact long_bits arr H Hs).
    pose proof (sample_sum_fits arr Hs) as Hb.
    change (2 ^ 62) with 4611686018427387904 in Hb.
    change (2 ^ 63) with 9223372036854775808. lia.
  - rewrite mean_sum_wrap by exact Hw.
    pose proof (wrap_range long_bits (sum_of arr) Hw) as Hr.
    assert (Hp : 2 ^ (long_bits - 1) <= 2 ^ 62) by (apply Z.pow_le_mono_r; lia).
    change (2 ^ 62) with 4611686018427387904 in Hp.
    change (2 ^ 63) with 9223372036854775808. lia.
Qed.

(** The mean of a sample is a number: the division is never by zero and
    never overflows. *)
Lemma calculate_mean_number (long_bits : Z) (arr : list Z) :
  0 < long_bits -> is_sample arr -> is_number (calculate_mean long_bits arr).
Proof.
  intros Hw Hs. unfold calculate_mean.
  destruct (Z.eqb_spec (Z.of_nat (length arr)) 0) as [E | E]; [exact I |].
  destruct Hs as [Hf Hn]. unfold INT_MAX in Hn.
  change (2 ^ 31) with 2147483648 in Hn.
  apply ddiv_number.
  - apply double_of_Z_small, mean_sum_small; [exact Hw | split; assumption].
  - apply double_of_Z_small. change (2 ^ 63) with 9223372036854775808. lia.
  - apply double_of_Z_finite; [exact E |].
    change (2 ^ 53) with 9007199254740992. lia.
Qed.

(** The median of a sample is a number. *)
Lemma calculate_median_number (arr : list Z) :
  is_sample arr -> is_number (calculate_median arr).
Proof.
  intros [Hf _]. unfold calculate_median.
  destruct (Z.of_nat (length arr) =? 0); [exact I |].
  assert (Hq : Forall is_int (qsort compare arr)).
  { rewrite (qsort_perm compare arr). exact Hf. }
  unfold median_select. destruct (Z.rem (Z.of_nat (length arr)) 2 =? 0).
  - apply ddiv_number.
    + apply double_of_int_small, int_wrap_is_int.
    + cbn. lia.
    + exact I.
  - eapply represents_number, double_of_Z_exact.
    pose proof (at_index_is_int (qsort compare arr)
                  (Z.quot (Z.of_nat (length arr)) 2) Hq) as Hi.
    unfold is_int, INT_MIN, INT_MAX in Hi.
    change (2 ^ 31) with 2147483648 in Hi.
    change (2 ^ 53) with 9007199254740992. lia.
Qed.

(** ** The report *)

Lemma append_nil_r (s : string) : s +:+ "" = s.
Proof.
  induction s as [| c s IH]; [reflexivity |].
  change (String c (s +:+ "") = String c s). rewrite IH. reflexivity.
Qed.

Lemma append_assoc (s1 s2 s3 : string) : (s1 +:+ s2) +:+ s3 = s1 +:+ s2 +:+ s3.
Proof.
  induction s1 as [| c s1 IH]; [reflexivity |].
  change (String c ((s1 +:+ s2) +:+ s3) = String c (s1 +:+ s2 +:+ s3)).
  rewrite IH. reflexivity.
Qed.

Lemma sep_all_snoc (l : list Z) (x : Z) :
  sep_all (l ++ [x]) = sep_all l +:+ print_int x +:+ ", ".
Proof.
  induction l as [| y l IH]; simpl.
  - reflexivity.
  - fold (sep_all (l ++ [x])). fold (sep_all l).
    rewrite IH, !append_assoc. reflexivity.
Qed.

Lemma concat_snoc (l : list Z) (x : Z) :
  String.concat ", " (map print_int (l ++ [x])) = sep_all l +:+ print_int x.
Proof.
  induction l as [| y l IH].
  - reflexivity.
  - cbn [app map]. cbn [sep_all fold_right]. fold (sep_all l).
    rewrite !append_assoc, <- IH.
    destruct (map print_int (l ++ [x])) eqn:E.
    + destruct l; discriminate.
    + reflexivity.
Qed.

(** While the index stays below [last], every element is followed by the
    separator. *)
Lemma print_loop_prefix (a : list Z) (last : Z) (n : nat) :
  (n <= length a)%nat -> Z.of_nat n <= last ->
  fold_left
    (fun out i =>
       out +:+ print_int (at_index a i) +:+ (if i <? last then ", " else ""))
    (seqZ 0 (Z.of_nat n)) ""
  = sep_all (firstn n a).
Proof.
  induction n as [| n IH]; intros Hn Hl.
  - reflexivity.
  - rewrite seqZ_S, fold_left_app, IH by lia. cbn [fold_left].
    destruct (Z.ltb_spec (0 + Z.of_nat n) last) as [_ | H]; [| lia].
    destruct (lookup_lt_is_Some_2 a n ltac:(lia)) as [x Hx].
    rewrite (take_S_r a n x Hx), sep_all_snoc.
    unfold at_index. replace (Z.to_nat (0 + Z.of_nat n)) with n by lia.
    rewrite (nth_lookup_Some a n 0 x Hx). reflexivity.
Qed.

(** The printing loop writes the elements separated by [", "]. *)
Lemma print_elems_concat (a : list Z) :
  print_elems a (Z.of_nat (length a)) = String.concat ", " (map print_int a).
Proof.
  destruct a as [| x a _] using rev_ind; [reflexivity |].
  unfold print_elems. rewrite length_app. cbn [length].
  replace (length a + 1)%nat with (S (length a)) by lia.
  rewrite seqZ_S, fold_left_app.
  replace (Z.of_nat (S (length a)) - 1) with (Z.of_nat (length a)) by lia.
  rewrite (print_loop_prefix (a ++ [x]) (Z.of_nat (length a)) (length a))
    by (rewrite ?length_app; simpl; lia).
  cbn [fold_left]. rewrite Z.add_0_l, Z.ltb_irrefl, append_nil_r.
  rewrite take_app_length, concat_snoc.
  unfold at_index. rewrite Nat2Z.id.
  rewrite app_nth2, Nat.sub_diag by lia. reflexivity.
Qed.

Lemma print_array_literal (arr : list Z) :
  print_array arr (Z.of_nat (length arr)) = array_literal arr.
Proof. unfold print_array, array_literal. rewrite print_elems_concat. reflexivity. Qed.

(** [%.2f] gives two decimals to every number. *)
Lemma print_fixed2_two_decimals (x : double) :
  is_number x -> two_decimals (print_fixed2 x).
Proof.
  destruct x as [s | s | | s m e]; simpl; try tauto; intros _.
  - exists s, 0, 0, 0. repeat split; try lia.
  - assert (Hn : 0 <= hundredths m e).
    { unfold hundredths. destruct (0 <=? e) eqn:E.
      - apply Z.leb_le in E. assert (0 <= 2 ^ e) by (apply Z.pow_nonneg; lia). nia.
      - apply Z.leb_gt in E.
        assert (Hd : 0 < 2 ^ (- e)) by (apply Z.pow_pos_nonneg; lia).
        assert (Hq : 0 <= Zpos m * 100 / 2 ^ (- e)) by (apply Z.div_pos; lia).
        repeat match goal with |- context [if ?b then _ else _] => destruct b end; lia. }
    exists s, (hundredths m e / 100), (hundredths m e / 10 mod 10), (hundredths m e mod 10).
    split; [apply Z.div_pos; lia |].
    split; [pose proof (Z.mod_pos_bound (hundredths m e / 10) 10); lia |].
    split; [pose proof (Z.mod_pos_bound (hundredths m e) 10); lia |].
    reflexivity.
Qed.

(** ** Deciding the hypotheses on concrete samples *)

Lemma is_intb_ok (z : Z) : is_intb z = true -> is_int z.
Proof. unfold is_intb, is_int. lia. Qed.

Lemma is_sampleb_ok (arr : list Z) : is_sampleb arr = true -> is_sample arr.
Proof.
  unfold is_sampleb, is_sample. intros H.
  apply andb_prop in H as [H1 H2]. split; [| lia].
  rewrite List.Forall_forall. intros x Hx.
  apply is_intb_ok. rewrite forallb_forall in H1. apply H1, Hx.
Qed.

Lemma diff_fitsb_ok (arr : list Z) : diff_fitsb arr = true -> diff_fits arr.
Proof.
  unfold diff_fitsb, diff_fits. intros H x y Hx Hy.
  rewrite forallb_forall in H. specialize (H x Hx).
  rewrite forallb_forall in H. apply is_intb_ok, H, Hy.
Qed.

Lemma consistent_onb_ok (cmp : Z -> Z -> Z) (d : list Z) :
  consistent_onb cmp d = true -> consistent_on cmp d.
Proof.
  unfold consistent_onb, consistent_on, cmp_le. intros H.
  apply andb_prop in H as [H1 H2]. split.
  - intros x y Hx Hy. rewrite forallb_forall in H1. specialize (H1 x Hx).
    rewrite forallb_forall in H1. specialize (H1 y Hy). lia.
  - intros x y z Hx Hy Hz Hxy Hyz.
    rewrite forallb_forall in H2. specialize (H2 x Hx).
    rewrite forallb_forall in H2. specialize (H2 y Hy).
    rewrite forallb_forall in H2. specialize (H2 z Hz).
    destruct (cmp x y <=? 0) eqn:E1; [| lia].
    destruct (cmp y z <=? 0) eqn:E2; [| lia].
    simpl in H2. lia.
Qed.

Lemma separatesb_ok (cmp : Z -> Z -> Z) (d : list Z) :
  separatesb cmp d = true ->
  forall x y, In x d -> In y d -> cmp_le cmp x y -> cmp_le cmp y x -> x = y.
Proof.
  unfold separatesb, cmp_le. intros H x y Hx Hy Hxy Hyx.
  rewrite forallb_forall in H. specialize (H x Hx).
  rewrite forallb_forall in H. specialize (H y Hy).
  destruct (cmp x y <=? 0) eqn:E1; [| lia].
  destruct (cmp y x <=? 0) eqn:E2; [| lia].
  simpl in H. lia.
Qed.

(** When the comparator is a strict total order on the values of the
    array, the sorted copy is forced: every arrangement sorted by the
    comparator is the one [qsort] returns. *)
Lemma sorted_copy_forced (b s : list Z) :
  consistent_onb compare b = true -> separatesb compare b = true ->
  Permutation s b -> StronglySorted (cmp_le compare) s -> s = qsort compare b.
Proof.
  intros Hc Hs. apply qsort_unique.
  - apply consistent_onb_ok, Hc.
  - apply separatesb_ok, Hs.
Qed.

(** ** The demonstration inputs of the program *)

Example demo_1 :
  print_statistics 64 [1; 2; 3; 4; 5; 5; 5] =
  "Array: [1, 2, 3, 4, 5, 5, 5]" +:+ nl +:+ "Mean: 3.57" +:+ nl +:+
  "Median: 4.00" +:+ nl +:+ "Mode: 5 (frequency: 3)" +:+ nl +:+ nl.
Proof. vm_compute. reflexivity. Qed.

Example demo_2 :
  print_statistics 64 [1; 1; 2; 2; 3; 3] =
  "Array: [1, 1, 2, 2, 3, 3]" +:+ nl +:+ "Mean: 2.00" +:+ nl +:+
  "Median: 2.00" +:+ nl +:+ "Mode: [1, 2, 3] (frequency: 2 each)" +:+ nl +:+ nl.
Proof. vm_compute. reflexivity. Qed.

Example demo_3 :
  print_statistics 64 [42] =
  "Array: [42]" +:+ nl +:+ "Mean: 42.00" +:+ nl +:+
  "Median: 42.00" +:+ nl +:+ "Mode: 42 (frequency: 1)" +:+ nl +:+ nl.
Proof. vm_compute. reflexivity. Qed.

Example demo_4 :
  print_statistics 64 [1; 2; 3; 4] =
  "Array: [1, 2, 3, 4]" +:+ nl +:+ "Mean: 2.50" +:+ nl +:+
  "Median: 2.50" +:+ nl +:+ "Mode: [1, 2, 3, 4] (frequency: 1 each)" +:+ nl +:+ nl.
Proof. vm_compute. reflexivity. Qed.

Example demo_modes :
  calculate_mode [1; 2; 3; 4; 5; 5; 5] = {| modes := [5]; count := 1; frequency := 3 |} /\
  calculate_mode [1; 1; 2; 2; 3; 3] = {| modes := [1; 2; 3]; count := 3; frequency := 2 |} /\
  calculate_mode [42] = {| modes := [42]; count := 1; frequency := 1 |} /\
  calculate_mode [1; 2; 3; 4] = {| modes := [1; 2; 3; 4]; count := 4; frequency := 1 |}.
Proof. repeat split; vm_compute; reflexivity. Qed.

(** The two models of the library sort agree on the inputs used below on
    which the comparator is inconsistent. *)
Example sorts_agree_on_inconsistent_inputs :
  insertion_sort compare [0; INT_MIN; 0] = qsort compare [0; INT_MIN; 0] /\
  insertion_sort compare [INT_MIN; 0; 0] = qsort compare [INT_MIN; 0; 0] /\
  insertion_sort compare [3; 1; 2; 1] = [1; 1; 2; 3].
Proof. repeat split; vm_compute; reflexivity. Qed.

(** With a 32-bit [long] the accumulator of [calculate_mean] wraps. *)
Example mean_sum_wraps_with_32_bit_long : mean_sum 32 [INT_MAX; 1] = INT_MIN.
Proof. vm_compute. reflexivity. Qed.

(** ** A sample whose sum no [double] holds *)

Lemma sum_of_replicate (n : nat) (x : Z) :
  sum_of (replicate n x) = Z.of_nat n * x.
Proof.
  induction n as [| n IH]; [reflexivity |].
  cbn [replicate sum_of fold_right]. fold (sum_of (replicate n x)).
  rewrite IH, Nat2Z.inj_succ. lia.
Qed.

Lemma is_sample_replicate (n : nat) (x : Z) :
  is_int x -> Z.of_nat n <= INT_MAX -> is_sample (replicate n x).
Proof.
  intros Hx Hn. split.
  - apply Forall_replicate. exact Hx.
  - rewrite length_replicate. exact Hn.
Qed.

Lemma calculate_mean_replicate (long_bits : Z) (n : nat) (x : Z) :
  64 <= long_bits -> is_int x -> 0 < Z.of_nat n <= INT_MAX ->
  calculate_mean long_bits (replicate n x)
    = ddiv (double_of_Z (Z.of_nat n * x)) (double_of_Z (Z.of_nat n)).
Proof.
  intros Hw Hx Hn. unfold calculate_mean. cbv zeta.
  rewrite mean_sum_exact by (try apply is_sample_replicate; tauto || lia).
  rewrite length_replicate, sum_of_replicate.
  destruct (Z.eqb_spec (Z.of_nat n) 0) as [E | _]; [lia | reflexivity].
Qed.

Lemma large_sum_sample_length :
  Z.of_nat (length large_sum_sample) = 4194305.
Proof.
  unfold large_sum_sample. rewrite length_replicate. apply Z2Nat.id. lia.
Qed.

Lemma large_sum_sample_is_sample : is_sample large_sum_sample.
Proof.
  unfold large_sum_sample. apply is_sample_replicate.
  - unfold is_int, INT_MIN, INT_MAX. change (2 ^ 31) with 2147483648. lia.
  - rewrite Z2Nat.id by lia. unfold INT_MAX. change (2 ^ 31) with 2147483648. lia.
Qed.

Lemma large_sum_sample_nonempty : large_sum_sample <> [].
Proof.
  intros E. pose proof large_sum_sample_length as Hl. rewrite E in Hl.
  change (Z.of_nat (length (@nil Z))) with 0 in Hl. lia.
Qed.

Lemma large_sum_sample_sum :
  sum_of large_sum_sample = INT_MAX * Z.of_nat (length large_sum_sample).
Proof.
  rewrite large_sum_sample_length. unfold large_sum_sample.
  rewrite sum_of_replicate, Z2Nat.id by lia. lia.
Qed.

(** The sum [2^53 + 2^31 - 2^22 - 1] is odd and above [2^53]: the
    conversion to [double] rounds it to the next even number, and the
    quotient of that by [2^22 + 1] rounds to [INT_MAX + 2^-22]. *)
Lemma large_sum_sample_mean :
  calculate_mean 64 large_sum_sample = S754_finite false 9007199250546689 (-22).
Proof.
  unfold large_sum_sample. rewrite calculate_mean_replicate.
  - rewrite Z2Nat.id by lia. vm_compute. reflexivity.
  - lia.
  - unfold is_int, INT_MIN, INT_MAX. change (2 ^ 31) with 2147483648. lia.
  - rewrite Z2Nat.id by lia. unfold INT_MAX. change (2 ^ 31) with 2147483648. lia.
Qed.

(** ** The claims of the specification *)

(** C1 (mode: frequency and values).  The specification asks, for every
    sample, that the frequency be the largest multiplicity and the values
    exactly those attaining it.  The code misses this on [0; INT_MIN; 0]:
    [compare 0 INT_MIN] computes [0 - INT_MIN], which wraps to a negative
    value, so the comparator reports [0] below [INT_MIN] as well as
    [INT_MIN] below [0]; the sort then leaves the copy as it is, the two
    occurrences of [0] are not adjacent, and the scan reports three modes
    of frequency 1 where the value [0] occurs twice.
    ([calculate_mode_correct] above is the property on the samples whose
    differences fit in an [int].) *)
Theorem mode_frequency_wrong_when_differences_wrap :
  is_sample [0; INT_MIN; 0] /\
  compare 0 INT_MIN < 0 /\ compare INT_MIN 0 < 0 /\
  qsort compare [0; INT_MIN; 0] = [0; INT_MIN; 0] /\
  calculate_mode [0; INT_MIN; 0]
    = {| modes := [0; INT_MIN; 0]; count := 3; frequency := 1 |} /\
  max_mult [0; INT_MIN; 0] = 2 /\
  mult 0 [0; INT_MIN; 0] = 2 /\ mult INT_MIN [0; INT_MIN; 0] = 1.
Proof.
  split; [apply is_sampleb_ok; reflexivity |].
  repeat split; vm_compute; reflexivity.
Qed.

(** C2 (median: middle element, or average of the two middle elements,
    of the ascending copy).  The code misses this in two ways.  On
    [INT_MIN; 1; 2] the wrapped comparator orders [1 < 2 < INT_MIN]; this
    is a strict total order on the three values, so every sort that meets
    C's contract returns [1; 2; INT_MIN], and the median returned is [2.0]
    where the middle element of the ascending copy is [1].  On
    [2^30; 2^30] the sum of the two middle elements is formed in [int] and
    wraps to [-2^31]: the median returned is [-2^30] where the average is
    [2^30].  ([calculate_median_correct] above is the property on the
    samples that avoid both.) *)
Theorem median_wrong_when_int_arithmetic_wraps :
  (is_sample [INT_MIN; 1; 2] /\
   (forall s, Permutation s [INT_MIN; 1; 2] ->
              StronglySorted (cmp_le compare) s -> s = [1; 2; INT_MIN]) /\
   calculate_median [INT_MIN; 1; 2] = double_of_Z 2 /\
   StronglySorted Z.le [INT_MIN; 1; 2] /\
   median_of_ascending [INT_MIN; 1; 2] = double_of_Z 1 /\
   double_of_Z 2 <> double_of_Z 1) /\
  (is_sample [2 ^ 30; 2 ^ 30] /\
   diff_fits [2 ^ 30; 2 ^ 30] /\
   calculate_median [2 ^ 30; 2 ^ 30] = double_of_Z (- 2 ^ 30) /\
   median_of_ascending [2 ^ 30; 2 ^ 30] = double_of_Z (2 ^ 30) /\
   double_of_Z (- 2 ^ 30) <> double_of_Z (2 ^ 30)).
Proof.
  split.
  - split; [apply is_sampleb_ok; reflexivity |].
    split.
    { intros s Hp Hs.
      rewrite (sorted_copy_forced [INT_MIN; 1; 2] s); try assumption; reflexivity. }
    split; [vm_compute; reflexivity |].
    split.
    { repeat constructor; unfold INT_MIN; lia. }
    split; [vm_compute; reflexivity |].
    vm_compute. discriminate.
  - split; [apply is_sampleb_ok; reflexivity |].
    split; [apply diff_fitsb_ok; reflexivity |].
    split; [vm_compute; reflexivity |].
    split; [vm_compute; reflexivity |].
    vm_compute. discriminate.
Qed.

(** C3 (mean = sum / length), as amended.  The specification asks, for
    every non-empty sample, for the sum divided by the length with no
    rounding but that of the division.  That holds where [long] has at
    least 64 bits and the magnitude of the sum is below [2^53]: the mean
    returned is the IEEE quotient of the exact sum of the elements by the
    length, both converted to [double]; the conversion of the length is
    always exact, and so is that of the sum below [2^53], so that the only
    rounding is that of the division.  Above [2^53] the conversion of the
    sum rounds as well. *)
Theorem mean_is_sum_over_length (long_bits : Z) (arr : list Z) :
  64 <= long_bits -> is_sample arr -> arr <> [] ->
  calculate_mean long_bits arr
    = ddiv (double_of_Z (sum_of arr)) (double_of_Z (Z.of_nat (length arr))) /\
  represents (double_of_Z (Z.of_nat (length arr))) (Z.of_nat (length arr)) /\
  (- 2 ^ 53 < sum_of arr < 2 ^ 53 ->
   represents (double_of_Z (sum_of arr)) (sum_of arr)).
Proof.
  intros Hw Hs Hne. split; [| split].
  - unfold calculate_mean.
    destruct (Z.eqb_spec (Z.of_nat (length arr)) 0) as [E | _].
    + destruct arr; [congruence | simpl in E; lia].
    + rewrite (mean_sum_exact long_bits arr Hw Hs). reflexivity.
  - apply double_of_Z_exact. destruct Hs as [_ Hn]. unfold INT_MAX in Hn.
    change (2 ^ 31) with 2147483648 in Hn.
    change (2 ^ 53) with 9007199254740992. lia.
  - apply double_of_Z_exact.
Qed.

Lemma mean_is_sum_over_length_witness :
  64 <= 64 /\ is_sample [1; 2; 3; 4; 5; 5; 5] /\ [1; 2; 3; 4; 5; 5; 5] <> [] /\
  calculate_mean 64 [1; 2; 3; 4; 5; 5; 5]
    = ddiv (double_of_Z (sum_of [1; 2; 3; 4; 5; 5; 5]))
           (double_of_Z (Z.of_nat (length [1; 2; 3; 4; 5; 5; 5]))).
Proof.
  assert (H1 : 64 <= 64) by lia.
  assert (H2 : is_sample [1; 2; 3; 4; 5; 5; 5]) by (apply is_sampleb_ok; reflexivity).
  assert (H3 : [1; 2; 3; 4; 5; 5; 5] <> []) by discriminate.
  split; [exact H1 |]. split; [exact H2 |]. split; [exact H3 |].
  exact (proj1 (mean_is_sum_over_length 64 [1; 2; 3; 4; 5; 5; 5] H1 H2 H3)).
Defined.

(** The mean is not always the sum over the length rounded once.  With a
    64-bit [long], on the [2^22 + 1] copies of [INT_MAX] the sum is
    [INT_MAX] times the length, so the quotient is [INT_MAX], which a
    [double] holds exactly and the division need not round; the code
    returns [INT_MAX + 2^-22], because the sum was rounded on conversion.
    With a 32-bit [long], on [{INT_MAX, INT_MAX}] the sum wraps to [-2]
    and the code returns [-1] where the quotient is [INT_MAX]. *)
Lemma mean_differs_from_sum_over_length :
  (is_sample large_sum_sample /\ large_sum_sample <> [] /\
   sum_of large_sum_sample = INT_MAX * Z.of_nat (length large_sum_sample) /\
   represents (double_of_Z INT_MAX) INT_MAX /\
   calculate_mean 64 large_sum_sample
     = S754_finite false 9007199250546689 (-22) /\
   calculate_mean 64 large_sum_sample <> double_of_Z INT_MAX) /\
  (is_sample [INT_MAX; INT_MAX] /\
   sum_of [INT_MAX; INT_MAX] = INT_MAX * Z.of_nat (length [INT_MAX; INT_MAX]) /\
   calculate_mean 32 [INT_MAX; INT_MAX] = double_of_Z (- 1) /\
   calculate_mean 32 [INT_MAX; INT_MAX] <> double_of_Z INT_MAX).
Proof.
  split.
  - split; [exact large_sum_sample_is_sample |].
    split; [exact large_sum_sample_nonempty |].
    split; [exact large_sum_sample_sum |].
    split; [vm_compute; split; [discriminate | reflexivity] |].
    split; [exact large_sum_sample_mean |].
    rewrite large_sum_sample_mean. vm_compute. discriminate.
  - split; [apply is_sampleb_ok; reflexivity |].
    split; [vm_compute; reflexivity |].
    split; [vm_compute; reflexivity |].
    vm_compute. discriminate.
Qed.

(** C4 (empty sample).  On the empty sample the mean is [0.0], the median
    is [0.0] and the mode has no values and frequency 0. *)
Theorem empty_sample_conventions (long_bits : Z) :
  calculate_mean long_bits [] = d_zero /\
  calculate_median [] = d_zero /\
  calculate_mode [] = {| modes := []; count := 0; frequency := 0 |}.
Proof. repeat split. Qed.

(** C5 (the mode result is well formed).  The specification asks for
    values in ascending order, each once.  The code misses this on
    [INT_MIN; 1]: the wrapped comparator orders [1] before [INT_MIN] (a
    strict total order on the two values, so the sorted copy is forced),
    and the values come out as [1; INT_MIN], which is descending.  On
    [0; INT_MIN; 0] the value [0] is returned twice.  (The other parts
    hold: [calculate_mode_nonempty] for every sample, and
    [calculate_mode_correct] on the samples whose differences fit.) *)
Theorem mode_values_unordered_when_differences_wrap :
  (is_sample [INT_MIN; 1] /\
   (forall s, Permutation s [INT_MIN; 1] ->
              StronglySorted (cmp_le compare) s -> s = [1; INT_MIN]) /\
   calculate_mode [INT_MIN; 1]
     = {| modes := [1; INT_MIN]; count := 2; frequency := 1 |} /\
   ~ StronglySorted Z.le [1; INT_MIN]) /\
  (is_sample [0; INT_MIN; 0] /\
   modes (calculate_mode [0; INT_MIN; 0]) = [0; INT_MIN; 0] /\
   ~ NoDup [0; INT_MIN; 0]).
Proof.
  split.
  - split; [apply is_sampleb_ok; reflexivity |].
    split.
    { intros s Hp Hs.
      rewrite (sorted_copy_forced [INT_MIN; 1] s); try assumption; reflexivity. }
    split; [vm_compute; reflexivity |].
    intros H. apply StronglySorted_inv in H as [_ H].
    apply Forall_cons_1 in H as [H _]. unfold INT_MIN in H. lia.
  - split; [apply is_sampleb_ok; reflexivity |].
    split; [vm_compute; reflexivity |].
    intros H. apply NoDup_cons_1_1 in H. apply H.
    apply list_elem_of_In. right. left. reflexivity.
Qed.

(** C6 (order independence of mean and median).  The mean does not depend
    on the order of the sample ([mean_perm] above, for every width of
    [long]).  The median does on [0; INT_MIN; 0]: there [compare] reports
    each of the two values below the other, the sort leaves
    [0; INT_MIN; 0] and [INT_MIN; 0; 0] as they are, and the two
    arrangements of one sample get the medians [INT_MIN] and [0].
    ([median_perm] above is the property on the
    samples whose differences fit in an [int].) *)
Theorem median_order_dependent_when_differences_wrap :
  is_sample [0; INT_MIN; 0] /\
  Permutation [0; INT_MIN; 0] [INT_MIN; 0; 0] /\
  calculate_median [0; INT_MIN; 0] = double_of_Z INT_MIN /\
  calculate_median [INT_MIN; 0; 0] = double_of_Z 0 /\
  calculate_median [0; INT_MIN; 0] <> calculate_median [INT_MIN; 0; 0].
Proof.
  split; [apply is_sampleb_ok; reflexivity |].
  split; [apply perm_swap |].
  split; [vm_compute; reflexivity |].
  split; [vm_compute; reflexivity |].
  vm_compute. discriminate.
Qed.

(** C7 (the accumulator of the mean), as amended.  The accumulator is a
    [long], whose width the source does not fix.  Where it has at least 64
    bits, for every sample the accumulator never overflows: after any
    number of iterations it holds the exact sum of the elements read so
    far, which fits in 64 bits.  The mean of a non-empty sample is then
    the IEEE quotient of that exact sum by the length, both converted to
    [double]: the conversion of the length is exact, and so is that of the
    sum where its magnitude is below [2^53], and the result is a number.
    Above [2^53] the conversion of the sum rounds. *)
Theorem mean_accumulation_exact (long_bits : Z) (arr : list Z) :
  64 <= long_bits -> is_sample arr ->
  (forall k : nat,
     mean_sum long_bits (firstn k arr) = sum_of (firstn k arr) /\
     - 2 ^ 63 <= sum_of (firstn k arr) < 2 ^ 63) /\
  mean_sum long_bits arr = sum_of arr /\
  (arr <> [] ->
   calculate_mean long_bits arr
     = ddiv (double_of_Z (mean_sum long_bits arr))
            (double_of_Z (Z.of_nat (length arr))) /\
   calculate_mean long_bits arr
     = ddiv (double_of_Z (sum_of arr)) (double_of_Z (Z.of_nat (length arr))) /\
   represents (double_of_Z (Z.of_nat (length arr))) (Z.of_nat (length arr)) /\
   (- 2 ^ 53 < sum_of arr < 2 ^ 53 ->
    represents (double_of_Z (mean_sum long_bits arr)) (sum_of arr)) /\
   is_number (calculate_mean long_bits arr)).
Proof.
  intros Hw Hs. split; [| split].
  - intros k. pose proof (is_sample_firstn k arr Hs) as Hk. split.
    + apply mean_sum_exact; assumption.
    + pose proof (sample_sum_fits _ Hk) as Hb.
      change (2 ^ 62) with 4611686018427387904 in Hb.
      change (2 ^ 63) with 9223372036854775808. lia.
  - apply mean_sum_exact; assumption.
  - intros Hne.
    assert (Hm : calculate_mean long_bits arr
                 = ddiv (double_of_Z (mean_sum long_bits arr))
                        (double_of_Z (Z.of_nat (length arr)))).
    { unfold calculate_mean.
      destruct (Z.eqb_spec (Z.of_nat (length arr)) 0) as [E | _];
        [destruct arr; [congruence | simpl in E; lia] | reflexivity]. }
    split; [exact Hm |].
    split; [rewrite Hm, (mean_sum_exact long_bits arr Hw Hs); reflexivity |].
    split; [| split].
    + apply double_of_Z_exact. destruct Hs as [_ Hn]. unfold INT_MAX in Hn.
      change (2 ^ 31) with 2147483648 in Hn.
      change (2 ^ 53) with 9007199254740992. lia.
    + intros Hb. rewrite (mean_sum_exact long_bits arr Hw Hs).
      apply double_of_Z_exact, Hb.
    + apply calculate_mean_number; [lia | exact Hs].
Qed.

Lemma mean_accumulation_exact_witness :
  64 <= 64 /\ is_sample [INT_MAX; INT_MAX; INT_MIN] /\
  mean_sum 64 [INT_MAX; INT_MAX; INT_MIN] = sum_of [INT_MAX; INT_MAX; INT_MIN].
Proof.
  assert (H1 : 64 <= 64) by lia.
  assert (H2 : is_sample [INT_MAX; INT_MAX; INT_MIN])
    by (apply is_sampleb_ok; reflexivity).
  split; [exact H1 |]. split; [exact H2 |].
  exact (proj1 (proj2 (mean_accumulation_exact 64 _ H1 H2))).
Defined.

(** The accumulator need not have 64 bits, and an exact sum does not make
    the mean the quotient.  With a 32-bit [long], [{INT_MAX, 1}] is a
    sample whose sum [2^31] fits in 64 bits, yet the accumulator wraps to
    [INT_MIN] and the mean returned is [-2^30] where the quotient is
    [2^30].  With a 64-bit [long], on the [2^22 + 1] copies of [INT_MAX]
    the accumulation is exact and the quotient is [INT_MAX], which a
    [double] holds, yet the mean returned is another number. *)
Lemma mean_accumulator_wraps_or_sum_rounds :
  (is_sample [INT_MAX; 1] /\
   - 2 ^ 63 <= sum_of [INT_MAX; 1] < 2 ^ 63 /\
   sum_of [INT_MAX; 1] = 2 ^ 30 * Z.of_nat (length [INT_MAX; 1]) /\
   mean_sum 32 [INT_MAX; 1] = INT_MIN /\
   mean_sum 32 [INT_MAX; 1] <> sum_of [INT_MAX; 1] /\
   calculate_mean 32 [INT_MAX; 1] = double_of_Z (- 2 ^ 30) /\
   calculate_mean 32 [INT_MAX; 1] <> double_of_Z (2 ^ 30)) /\
  (is_sample large_sum_sample /\
   - 2 ^ 63 <= sum_of large_sum_sample < 2 ^ 63 /\
   mean_sum 64 large_sum_sample = sum_of large_sum_sample /\
   sum_of large_sum_sample = INT_MAX * Z.of_nat (length large_sum_sample) /\
   represents (double_of_Z INT_MAX) INT_MAX /\
   calculate_mean 64 large_sum_sample <> double_of_Z INT_MAX).
Proof.
  split.
  - split; [apply is_sampleb_ok; reflexivity |].
    split; [vm_compute; split; [discriminate | reflexivity] |].
    split; [vm_compute; reflexivity |].
    split; [vm_compute; reflexivity |].
    split; [vm_compute; discriminate |].
    split; [vm_compute; reflexivity |].
    vm_compute. discriminate.
  - pose proof large_sum_sample_is_sample as Hs.
    split; [exact Hs |].
    split.
    { pose proof (sample_sum_fits _ Hs) as Hb.
      change (2 ^ 62) with 4611686018427387904 in Hb.
      change (2 ^ 63) with 9223372036854775808. lia. }
    split; [apply mean_sum_exact; [lia | exact Hs] |].
    split; [exact large_sum_sample_sum |].
    split; [vm_compute; split; [discriminate | reflexivity] |].
    rewrite large_sum_sample_mean. vm_compute. discriminate.
Qed.

Lemma mode_result_of_spec (arr : nat) (data : list Z) (h : heap) :
  h !! arr = Some data ->
  let r := calculate_mode_mem arr (Z.of_nat (length data)) h in
  mode_result_of r = calculate_mode data /\
  (forall p, is_Some (h !! p) -> snd r !! p = h !! p).
Proof.
  intros Ha. cbv zeta. destruct data as [| x data].
  - split; [reflexivity | intros p _; reflexivity].
  - destruct (calculate_mode_mem_spec arr (x :: data) h Ha ltac:(discriminate))
      as (r & Hr & ->).
    split.
    + unfold mode_result_of, load. cbn [fst snd modes_ptr count_mem frequency_mem].
      rewrite lookup_insert_eq. cbn [default].
      destruct (calculate_mode (x :: data)). reflexivity.
    + intros p [v Hv]. cbn [snd]. apply lookup_insert_ne. congruence.
Qed.

(** C8 (the input is left unchanged; calling twice gives the same).  For
    every heap in which [arr] points to the sample: each calculator
    returns what it computes from the contents of the sample; the mean
    and the median leave the whole heap as it was (the sorted copy is a
    fresh block, freed before returning), and the mode leaves every block
    that existed before the call as it was, the sample among them, adding
    only the block of its result; a second call on the memory left by the
    first returns the same result. *)
Theorem calculators_leave_input_unchanged
    (long_bits : Z) (h : heap) (arr : nat) (data : list Z) :
  h !! arr = Some data ->
  let size := Z.of_nat (length data) in
  let r_mean := calculate_mean_mem long_bits arr size h in
  let r_median := calculate_median_mem arr size h in
  let r_mode := calculate_mode_mem arr size h in
  (fst r_mean = calculate_mean long_bits data /\
   fst r_median = calculate_median data /\
   mode_result_of r_mode = calculate_mode data) /\
  (snd r_mean = h /\ snd r_median = h /\
   (forall p, is_Some (h !! p) -> snd r_mode !! p = h !! p) /\
   snd r_mode !! arr = Some data) /\
  (fst (calculate_mean_mem long_bits arr size (snd r_mean)) = fst r_mean /\
   fst (calculate_median_mem arr size (snd r_median)) = fst r_median /\
   mode_result_of (calculate_mode_mem arr size (snd r_mode))
     = mode_result_of r_mode).
Proof.
  intros Ha. cbv zeta.
  rewrite (calculate_mean_mem_spec long_bits arr data h Ha).
  rewrite (calculate_median_mem_spec arr data h Ha).
  destruct (mode_result_of_spec arr data h Ha) as [Hm Hf]. cbv zeta in Hm, Hf.
  assert (Ha' : snd (calculate_mode_mem arr (Z.of_nat (length data)) h) !! arr
                = Some data).
  { rewrite Hf by (rewrite Ha; eexists; reflexivity). exact Ha. }
  cbn [fst snd].
  rewrite (calculate_mean_mem_spec long_bits arr data h Ha).
  rewrite (calculate_median_mem_spec arr data h Ha).
  cbn [fst snd].
  repeat split; try assumption.
  rewrite Hm. apply (mode_result_of_spec arr data _ Ha').
Qed.

Lemma calculators_leave_input_unchanged_witness :
  ({[ 7%nat := [3; 1; 2; 3] ]} : heap) !! 7%nat = Some [3; 1; 2; 3] /\
  snd (calculate_median_mem 7 4 {[ 7%nat := [3; 1; 2; 3] ]})
    = {[ 7%nat := [3; 1; 2; 3] ]} /\
  snd (calculate_mode_mem 7 4 {[ 7%nat := [3; 1; 2; 3] ]}) !! 7%nat
    = Some [3; 1; 2; 3].
Proof.
  assert (H : ({[ 7%nat := [3; 1; 2; 3] ]} : heap) !! 7%nat = Some [3; 1; 2; 3])
    by reflexivity.
  split; [exact H |].
  pose proof (calculators_leave_input_unchanged 64 _ 7%nat [3; 1; 2; 3] H) as T.
  cbv zeta in T. destruct T as (_ & (_ & T2 & _ & T4) & _).
  split; [exact T2 | exact T4].
Defined.

(** C9 (the report).  For the empty sample the report is the array literal
    [[]] and the line "Cannot calculate statistics for empty array.", and
    it contains none of the Mean, Median and Mode lines.  For a non-empty
    sample it is the array literal, then the Mean and the Median, each
    printed with exactly two decimals, then the Mode line: a single mode
    bare with its frequency, several modes as a bracketed, comma-separated
    list with the frequency of each. *)
Theorem print_statistics_report (long_bits : Z) :
  0 < long_bits ->
  (print_statistics long_bits []
     = "Array: []" +:+ nl +:+
       "Cannot calculate statistics for empty array." +:+ nl /\
   String.index 0 "Mean:" (print_statistics long_bits []) = None /\
   String.index 0 "Median:" (print_statistics long_bits []) = None /\
   String.index 0 "Mode:" (print_statistics long_bits []) = None) /\
  (forall arr : list Z, is_sample arr -> arr <> [] ->
     print_statistics long_bits arr
       = "Array: " +:+ array_literal arr +:+ nl +:+
         "Mean: " +:+ print_fixed2 (calculate_mean long_bits arr) +:+ nl +:+
         "Median: " +:+ print_fixed2 (calculate_median arr) +:+ nl +:+
         "Mode: " +:+ mode_line (calculate_mode arr) +:+ nl +:+ nl /\
     two_decimals (print_fixed2 (calculate_mean long_bits arr)) /\
     two_decimals (print_fixed2 (calculate_median arr))).
Proof.
  intros Hw. split; [repeat split |].
  intros arr Hs Hne. split.
  - unfold print_statistics.
    destruct (Z.eqb_spec (Z.of_nat (length arr)) 0) as [E | _].
    { destruct arr; [congruence | simpl in E; lia]. }
    rewrite print_array_literal. cbv zeta.
    destruct (calculate_mode_nonempty arr Hs Hne) as (Hm & _ & Hc).
    unfold mode_line. rewrite Hc.
    destruct (modes (calculate_mode arr)) as [| v [| w vs]] eqn:Em; [congruence | |].
    + cbn [length]. change (Z.of_nat 1 =? 1) with true. cbv iota.
      change (at_index [v] 0) with v.
      rewrite !append_assoc. reflexivity.
    + destruct (Z.eqb_spec (Z.of_nat (length (v :: w :: vs))) 1) as [E | _].
      { cbn [length] in E. lia. }
      rewrite print_elems_concat. unfold array_literal.
      rewrite !append_assoc. reflexivity.
  - split; apply print_fixed2_two_decimals.
    + apply calculate_mean_number; assumption.
    + apply calculate_median_number; assumption.
Qed.

Lemma print_statistics_report_witness :
  0 < 64 /\ is_sample [1; 1; 2; 2; 3; 3] /\ [1; 1; 2; 2; 3; 3] <> [] /\
  print_statistics 64 [1; 1; 2; 2; 3; 3]
    = "Array: " +:+ array_literal [1; 1; 2; 2; 3; 3] +:+ nl +:+
      "Mean: " +:+ print_fixed2 (calculate_mean 64 [1; 1; 2; 2; 3; 3]) +:+ nl +:+
      "Median: " +:+ print_fixed2 (calculate_median [1; 1; 2; 2; 3; 3]) +:+ nl +:+
      "Mode: " +:+ mode_line (calculate_mode [1; 1; 2; 2; 3; 3]) +:+ nl +:+ nl.
Proof.
  assert (H0 : 0 < 64) by lia.
  assert (H1 : is_sample [1; 1; 2; 2; 3; 3]) by (apply is_sampleb_ok; reflexivity).
  assert (H2 : [1; 1; 2; 2; 3; 3] <> []) by discriminate.
  split; [exact H0 |]. split; [exact H1 |]. split; [exact H2 |].
  exact (proj1 (proj2 (print_statistics_report 64 H0) _ H1 H2)).
Defined.

(** C10 (the comparator).  [compare] is the subtraction of its arguments
    wrapped to 32 bits.  On two [int] values it has the sign of their true
    difference exactly when that difference is itself an [int]; when this
    holds for every pair of elements of the sample, the sorted copy that
    [calculate_median] and [calculate_mode] scan is the ascending
    arrangement of the sample; and on [INT_MIN] and [1] the subtraction
    wraps to [INT_MAX], so the comparator puts [1] before [INT_MIN]. *)
Theorem compare_orders_iff_differences_fit :
  (forall a b, compare a b = wrap 32 (a - b)) /\
  (forall x y, is_int x -> is_int y ->
     (is_int (x - y) <->
      ((compare x y < 0 <-> x < y) /\ (compare x y = 0 <-> x = y) /\
       (0 < compare x y <-> y < x)))) /\
  (forall arr, diff_fits arr ->
     StronglySorted Z.le (qsort compare arr) /\
     Permutation (qsort compare arr) arr /\
     calculate_median arr
       = (if Z.of_nat (length arr) =? 0 then d_zero
          else median_select (qsort compare arr) (Z.of_nat (length arr))) /\
     calculate_mode arr
       = (if Z.of_nat (length arr) =? 0
          then {| modes := []; count := 0; frequency := 0 |}
          else mode_scan (qsort compare arr) (Z.of_nat (length arr)))) /\
  (is_int INT_MIN /\ is_int 1 /\ INT_MIN < 1 /\ compare INT_MIN 1 = INT_MAX /\
   qsort compare [INT_MIN; 1] = [1; INT_MIN]).
Proof.
  split; [reflexivity |]. split; [| split].
  - intros x y Hx Hy. split.
    + intros Hd. rewrite (compare_exact x y Hd). lia.
    + intros (H1 & H2 & H3).
      assert (Hdec : is_int (x - y) \/ ~ is_int (x - y))
        by (unfold is_int, INT_MIN, INT_MAX; lia).
      destruct Hdec as [Hd | Hd]; [exact Hd | exfalso].
      destruct (compare_wrapped x y Hx Hy Hd) as [(Ha & _ & Hb) | (Ha & _ & Hb)]; lia.
  - intros arr Hd. destruct (qsort_ascending arr Hd) as [Hs Hp].
    split; [exact Hs |]. split; [exact Hp |]. split; reflexivity.
  - split; [apply is_intb_ok; reflexivity |].
    split; [apply is_intb_ok; reflexivity |].
    split; [unfold INT_MIN; lia |].
    split; vm_compute; reflexivity.
Qed.

Lemma compare_orders_iff_differences_fit_witness :
  diff_fits [3; -1; 2; 3] /\
  StronglySorted Z.le (qsort compare [3; -1; 2; 3]) /\
  Permutation (qsort compare [3; -1; 2; 3]) [3; -1; 2; 3].
Proof.
  assert (H : diff_fits [3; -1; 2; 3]) by (apply diff_fitsb_ok; reflexivity).
  split; [exact H |].
  pose proof (proj1 (proj2 (proj2 compare_orders_iff_differences_fit)) _ H) as T.
  destruct T as (T1 & T2 & _). split; [exact T1 | exact T2].
Defined.

(** * Part IV: further properties of the code *)

(** ** The comparator *)

(** X1 ([compare] on equal and on swapped arguments).  On two [int]
    values the result of [compare] is an [int]; it is zero exactly when
    the two values are equal, whether or not the subtraction wraps; and
    swapping the arguments negates it, except when it is [INT_MIN]. *)
Theorem compare_zero_iff_equal (a b : Z) :
  is_int a -> is_int b ->
  is_int (compare a b) /\
  (compare a b = 0 <-> a = b) /\
  (compare a b <> INT_MIN -> compare b a = - compare a b).
Proof.
  intros Ha Hb. split; [apply int_wrap_is_int |].
  assert (D1 : is_int (a - b) \/ ~ is_int (a - b))
    by (unfold is_int, INT_MIN, INT_MAX; lia).
  assert (D2 : is_int (b - a) \/ ~ is_int (b - a))
    by (unfold is_int, INT_MIN, INT_MAX; lia).
  destruct D1 as [D1 | D1]; destruct D2 as [D2 | D2].
  - rewrite (compare_exact a b D1), (compare_exact b a D2). lia.
  - rewrite (compare_exact a b D1).
    destruct (compare_wrapped b a Hb Ha D2) as [(H1 & H2 & _) | (H1 & H2 & _)];
      rewrite H2; change (2 ^ 32) with 4294967296;
      unfold is_int, INT_MIN, INT_MAX in *; change (2 ^ 31) with 2147483648 in *; lia.
  - rewrite (compare_exact b a D2).
    destruct (compare_wrapped a b Ha Hb D1) as [(H1 & H2 & _) | (H1 & H2 & _)];
      rewrite H2; change (2 ^ 32) with 4294967296;
      unfold is_int, INT_MIN, INT_MAX in *; change (2 ^ 31) with 2147483648 in *; lia.
  - destruct (compare_wrapped a b Ha Hb D1) as [(H1 & H2 & _) | (H1 & H2 & _)];
      destruct (compare_wrapped b a Hb Ha D2) as [(H3 & H4 & _) | (H3 & H4 & _)];
      rewrite H2, H4; change (2 ^ 32) with 4294967296;
      unfold is_int, INT_MIN, INT_MAX in *; change (2 ^ 31) with 2147483648 in *; lia.
Qed.

Lemma compare_zero_iff_equal_witness :
  is_int 0 /\ is_int INT_MIN /\
  (compare 0 INT_MIN = 0 <-> 0 = INT_MIN).
Proof.
  assert (H1 : is_int 0) by (apply is_intb_ok; reflexivity).
  assert (H2 : is_int INT_MIN) by (apply is_intb_ok; reflexivity).
  split; [exact H1 |]. split; [exact H2 |].
  exact (proj1 (proj2 (compare_zero_iff_equal 0 INT_MIN H1 H2))).
Defined.

(** ** Mean *)

(** X2 (the mean does not depend on the order).  For every width of
    [long], two arrangements of the same values have the same mean: the
    wrapped accumulation is the exact sum reduced to that width, whatever
    the order of the additions. *)
Theorem mean_invariant_under_permutation (long_bits : Z) (a b : list Z) :
  0 < long_bits -> Permutation a b ->
  mean_sum long_bits a = mean_sum long_bits b /\
  calculate_mean long_bits a = calculate_mean long_bits b.
Proof.
  intros Hw Hp. split; [| apply mean_perm; assumption].
  rewrite !mean_sum_wrap by exact Hw. rewrite (sum_of_perm a b Hp). reflexivity.
Qed.

Lemma mean_invariant_under_permutation_witness :
  0 < 64 /\ Permutation [INT_MAX; 7; INT_MIN] [7; INT_MAX; INT_MIN] /\
  calculate_mean 64 [INT_MAX; 7; INT_MIN] = calculate_mean 64 [7; INT_MAX; INT_MIN].
Proof.
  assert (H1 : 0 < 64) by lia.
  assert (H2 : Permutation [INT_MAX; 7; INT_MIN] [7; INT_MAX; INT_MIN])
    by apply perm_swap.
  split; [exact H1 |]. split; [exact H2 |].
  exact (proj2 (mean_invariant_under_permutation 64 _ _ H1 H2)).
Defined.

(** X3 (the mean is a number).  For every sample and every width of
    [long], the value returned by [calculate_mean] is zero or finite,
    never an infinity or a NaN: the division is never by zero. *)
Theorem mean_is_a_number (long_bits : Z) (arr : list Z) :
  0 < long_bits -> is_sample arr -> is_number (calculate_mean long_bits arr).
Proof. apply calculate_mean_number. Qed.

Lemma mean_is_a_number_witness :
  0 < 32 /\ is_sample [INT_MAX; INT_MAX; 1] /\
  is_number (calculate_mean 32 [INT_MAX; INT_MAX; 1]).
Proof.
  assert (H1 : 0 < 32) by lia.
  assert (H2 : is_sample [INT_MAX; INT_MAX; 1]) by (apply is_sampleb_ok; reflexivity).
  split; [exact H1 |]. split; [exact H2 |].
  exact (mean_is_a_number 32 _ H1 H2).
Defined.

(** ** Median *)

Lemma rem2_even (n : nat) : (Z.rem (Z.of_nat n) 2 =? 0) = Nat.even n.
Proof.
  rewrite Z.rem_mod_nonneg by lia.
  destruct (Nat.even n) eqn:Ev.
  - apply Nat.even_spec in Ev. destruct Ev as [k ->].
    apply Z.eqb_eq. rewrite Nat2Z.inj_mul. simpl (Z.of_nat 2).
    rewrite Z.mul_comm. apply Z_mod_mult.
  - apply Z.eqb_neq. rewrite <- Nat.negb_odd in Ev.
    apply Bool.negb_false_iff, Nat.odd_spec in Ev. destruct Ev as [k ->].
    rewrite Nat2Z.inj_add, Nat2Z.inj_mul. simpl (Z.of_nat 2). simpl (Z.of_nat 1).
    rewrite Z.add_comm, Z.mul_comm, Z_mod_plus_full. discriminate.
Qed.

Lemma at_index_in (s : list Z) (i : Z) :
  0 <= i < Z.of_nat (length s) -> In (at_index s i) s.
Proof. intros Hi. unfold at_index. apply nth_In. lia. Qed.

(** X4 (the median is a number).  For every sample the value returned by
    [calculate_median] is zero or finite, never an infinity or a NaN. *)
Theorem median_is_a_number (arr : list Z) :
  is_sample arr -> is_number (calculate_median arr).
Proof. apply calculate_median_number. Qed.

Lemma median_is_a_number_witness :
  is_sample [INT_MIN; INT_MIN] /\ is_number (calculate_median [INT_MIN; INT_MIN]).
Proof.
  assert (H : is_sample [INT_MIN; INT_MIN]) by (apply is_sampleb_ok; reflexivity).
  split; [exact H | exact (median_is_a_number _ H)].
Defined.

(** X5 (the median is made of elements of the sample).  Whatever the sort
    did, for a sample of odd length the median is one of its elements
    converted to [double], and for a sample of even length it is the
    [int] sum of two of its elements, converted and divided by [2.0]. *)
Theorem median_built_from_elements (arr : list Z) :
  arr <> [] ->
  if Nat.even (length arr) then
    exists x y, In x arr /\ In y arr /\
      calculate_median arr = ddiv (double_of_Z (int_wrap (x + y))) d_two
  else
    exists x, In x arr /\ calculate_median arr = double_of_Z x.
Proof.
  intros Hne. unfold calculate_median.
  destruct (Z.eqb_spec (Z.of_nat (length arr)) 0) as [E | _].
  { destruct arr; [congruence | simpl in E; lia]. }
  unfold median_select. rewrite rem2_even.
  set (n := length arr).
  assert (Hn : (0 < n)%nat) by (subst n; destruct arr; [congruence | simpl; lia]).
  assert (Hq : Z.quot (Z.of_nat n) 2 = Z.of_nat (n / 2)).
  { rewrite Z.quot_div_nonneg by lia. rewrite Nat2Z.inj_div. reflexivity. }
  assert (Hlt : (n / 2 < n)%nat) by (apply Nat.div_lt; lia).
  assert (Hin : forall i, 0 <= i < Z.of_nat n -> In (at_index (qsort compare arr) i) arr).
  { intros i Hi. apply (Permutation_in _ (qsort_perm compare arr)).
    apply at_index_in. rewrite qsort_length. exact Hi. }
  rewrite Hq. clear Hq. clearbody n. destruct (Nat.even n) eqn:Ev.
  - assert (Hn2 : (2 <= n)%nat).
    { destruct n as [| [| n']]; [lia | discriminate | lia]. }
    assert (H2 : (1 <= n / 2)%nat) by (apply Nat.div_le_lower_bound; lia).
    exists (at_index (qsort compare arr) (Z.of_nat (n / 2) - 1)),
           (at_index (qsort compare arr) (Z.of_nat (n / 2))).
    split; [apply Hin; lia |]. split; [apply Hin; lia | reflexivity].
  - exists (at_index (qsort compare arr) (Z.of_nat (n / 2))).
    split; [apply Hin; lia | reflexivity].
Qed.

Lemma median_built_from_elements_witness :
  [INT_MIN; 1; 2] <> [] /\
  exists x, In x [INT_MIN; 1; 2] /\ calculate_median [INT_MIN; 1; 2] = double_of_Z x.
Proof.
  assert (H : [INT_MIN; 1; 2] <> []) by discriminate.
  split; [exact H |]. exact (median_built_from_elements [INT_MIN; 1; 2] H).
Defined.

(** X6 (the median of the specification, when nothing wraps).  When the
    differences of the sample fit in an [int] and so does the sum of the
    two middle elements of its ascending arrangement [s], the value
    returned is the middle element of [s] for an odd length and the
    average of its two middle elements for an even one. *)
Theorem median_of_ascending_sample (arr s : list Z) :
  arr <> [] -> diff_fits arr ->
  Permutation s arr -> StronglySorted Z.le s ->
  is_int (at_index s (Z.quot (Z.of_nat (length s)) 2 - 1)
          + at_index s (Z.quot (Z.of_nat (length s)) 2)) ->
  calculate_median arr = median_of_ascending s.
Proof. apply calculate_median_correct. Qed.

Lemma median_of_ascending_sample_witness :
  [4; 1; 3; 2] <> [] /\ diff_fits [4; 1; 3; 2] /\
  Permutation [1; 2; 3; 4] [4; 1; 3; 2] /\ StronglySorted Z.le [1; 2; 3; 4] /\
  calculate_median [4; 1; 3; 2] = median_of_ascending [1; 2; 3; 4].
Proof.
  assert (H1 : [4; 1; 3; 2] <> []) by discriminate.
  assert (H2 : diff_fits [4; 1; 3; 2]) by (apply diff_fitsb_ok; reflexivity).
  assert (H3 : Permutation [1; 2; 3; 4] [4; 1; 3; 2]).
  { rewrite <- (qsort_perm compare [4; 1; 3; 2]). reflexivity. }
  assert (H4 : StronglySorted Z.le [1; 2; 3; 4]) by (repeat constructor; lia).
  assert (H5 : is_int (at_index [1; 2; 3; 4] (Z.quot (Z.of_nat (length [1; 2; 3; 4])) 2 - 1)
                       + at_index [1; 2; 3; 4] (Z.quot (Z.of_nat (length [1; 2; 3; 4])) 2)))
    by (apply is_intb_ok; reflexivity).
  split; [exact H1 |]. split; [exact H2 |]. split; [exact H3 |]. split; [exact H4 |].
  exact (median_of_ascending_sample _ _ H1 H2 H3 H4 H5).
Defined.

(** X7 (the median does not depend on the order, when nothing wraps).
    When the differences of the sample fit in an [int], every arrangement
    of the sample has the same median. *)
Theorem median_invariant_when_differences_fit (a b : list Z) :
  diff_fits a -> Permutation a b -> calculate_median a = calculate_median b.
Proof. apply median_perm. Qed.

Lemma median_invariant_when_differences_fit_witness :
  diff_fits [5; -3; 9; 5] /\ Permutation [5; -3; 9; 5] [-3; 5; 9; 5] /\
  calculate_median [5; -3; 9; 5] = calculate_median [-3; 5; 9; 5].
Proof.
  assert (H1 : diff_fits [5; -3; 9; 5]) by (apply diff_fitsb_ok; reflexivity).
  assert (H2 : Permutation [5; -3; 9; 5] [-3; 5; 9; 5]) by apply perm_swap.
  split; [exact H1 |]. split; [exact H2 |].
  exact (median_invariant_when_differences_fit _ _ H1 H2).
Defined.

(** ** Mode *)

(** X8 (the mode of the specification, when nothing wraps).  When the
    differences of the sample fit in an [int], the frequency returned is
    the largest multiplicity of a value of the sample, the values
    returned are exactly the values of that multiplicity, in strictly
    ascending order, and [count] is their number. *)
Theorem mode_when_differences_fit (arr : list Z) :
  is_sample arr -> diff_fits arr ->
  frequency (calculate_mode arr) = max_mult arr /\
  (forall v, In v (modes (calculate_mode arr)) <->
             In v arr /\ mult v arr = max_mult arr) /\
  StronglySorted Z.lt (modes (calculate_mode arr)) /\
  count (calculate_mode arr) = Z.of_nat (length (modes (calculate_mode arr))).
Proof. apply calculate_mode_correct. Qed.

Lemma mode_when_differences_fit_witness :
  is_sample [7; -2; 7; -2; 5] /\ diff_fits [7; -2; 7; -2; 5] /\
  frequency (calculate_mode [7; -2; 7; -2; 5]) = max_mult [7; -2; 7; -2; 5].
Proof.
  assert (H1 : is_sample [7; -2; 7; -2; 5]) by (apply is_sampleb_ok; reflexivity).
  assert (H2 : diff_fits [7; -2; 7; -2; 5]) by (apply diff_fitsb_ok; reflexivity).
  split; [exact H1 |]. split; [exact H2 |].
  exact (proj1 (mode_when_differences_fit _ H1 H2)).
Defined.

Lemma runs_from_sum (xs : list Z) (v c : Z) :
  sum_of (map snd (runs_from v c xs)) = c + Z.of_nat (length xs).
Proof.
  revert v c. induction xs as [| x xs IH]; intros v c; cbn [runs_from length].
  - simpl. lia.
  - rewrite Nat2Z.inj_succ. destruct (x =? v).
    + rewrite IH. lia.
    + cbn [map snd sum_of fold_right]. fold (sum_of (map snd (runs_from x 1 xs))).
      rewrite IH. lia.
Qed.

(** A run is never longer than the number of occurrences of its value,
    whether or not the array is sorted. *)
Lemma runs_from_mult_le (xs : list Z) (v c : Z) (p : Z * Z) :
  0 <= c -> In p (runs_from v c xs) ->
  snd p <= mult (fst p) xs + (if fst p =? v then c else 0).
Proof.
  revert v c. induction xs as [| x xs IH]; intros v c Hc; cbn [runs_from].
  - intros [<- | []]. cbn [fst snd]. rewrite Z.eqb_refl. unfold mult. simpl. lia.
  - destruct (Z.eqb_spec x v) as [-> | Hne].
    + intros Hp. specialize (IH v (c + 1) ltac:(lia) Hp).
      rewrite mult_cons. destruct (fst p =? v); lia.
    + intros [<- | Hp]; cbn [fst snd].
      * rewrite Z.eqb_refl. pose proof (mult_nonneg v (x :: xs)). lia.
      * specialize (IH x 1 ltac:(lia) Hp). rewrite mult_cons.
        destruct (fst p =? x); destruct (fst p =? v); lia.
Qed.

Lemma runs_of_length_total (M : Z) (r : list (Z * Z)) :
  (forall p, In p r -> 0 <= snd p) ->
  Z.of_nat (length (runs_of_length M r)) * M <= sum_of (map snd r).
Proof.
  unfold runs_of_length. induction r as [| p r IH]; intros Hpos.
  - simpl. lia.
  - cbn [List.filter map sum_of fold_right]. fold (sum_of (map snd r)).
    assert (Hp : 0 <= snd p) by (apply Hpos; left; reflexivity).
    assert (IH' := IH (fun q Hq => Hpos q (or_intror Hq))).
    destruct (Z.eqb_spec (snd p) M) as [E | E].
    + cbn [map length]. rewrite Nat2Z.inj_succ. lia.
    + lia.
Qed.

(** X9 (what every mode result satisfies).  For every non-empty sample,
    whatever the sort did: there is at least one value, [count] is the
    number of values, the frequency is at least 1, [count * frequency]
    is at most the size of the sample, and every value returned is an
    element of the sample that occurs at least [frequency] times. *)
Theorem mode_result_sound (arr : list Z) :
  is_sample arr -> arr <> [] ->
  modes (calculate_mode arr) <> [] /\
  count (calculate_mode arr) = Z.of_nat (length (modes (calculate_mode arr))) /\
  1 <= frequency (calculate_mode arr) /\
  count (calculate_mode arr) * frequency (calculate_mode arr)
    <= Z.of_nat (length arr) /\
  (forall v, In v (modes (calculate_mode arr)) ->
             In v arr /\ frequency (calculate_mode arr) <= mult v arr).
Proof.
  intros Hs Hne.
  destruct (calculate_mode_nonempty arr Hs Hne) as (H1 & H2 & H3).
  split; [exact H1 |]. split; [exact H3 |]. split; [exact H2 |].
  rewrite (calculate_mode_runs arr Hs Hne). cbn [modes count frequency].
  pose proof (qsort_perm compare arr) as Hp.
  destruct (qsort compare arr) as [| v0 xs] eqn:Eq.
  { apply Permutation_nil in Hp. congruence. }
  cbn [runs]. split.
  - rewrite <- (Permutation_length Hp). cbn [length]. rewrite Nat2Z.inj_succ.
    pose proof (runs_of_length_total (max_run 1 (runs_from v0 1 xs)) (runs_from v0 1 xs)) as Ht.
    rewrite runs_from_sum in Ht. apply Z.le_trans with (1 + Z.of_nat (length xs)); [| lia].
    apply Ht. intros p Hq. pose proof (runs_from_positive xs v0 1 ltac:(lia) p Hq). lia.
  - intros v Hv. apply in_runs_of_length in Hv as (p & Hq & <- & Ep).
    split.
    + apply (Permutation_in _ Hp).
      destruct (runs_from_values _ _ _ _ Hq) as [E | E]; [left; auto | right; auto].
    + rewrite <- Ep, <- (mult_perm (fst p) _ _ Hp), mult_cons.
      pose proof (runs_from_mult_le xs v0 1 p ltac:(lia) Hq).
      destruct (fst p =? v0); lia.
Qed.

Lemma mode_result_sound_witness :
  is_sample [0; INT_MIN; 0] /\ [0; INT_MIN; 0] <> [] /\
  count (calculate_mode [0; INT_MIN; 0]) * frequency (calculate_mode [0; INT_MIN; 0])
    <= Z.of_nat (length [0; INT_MIN; 0]).
Proof.
  assert (H1 : is_sample [0; INT_MIN; 0]) by (apply is_sampleb_ok; reflexivity).
  assert (H2 : [0; INT_MIN; 0] <> []) by discriminate.
  split; [exact H1 |]. split; [exact H2 |].
  exact (proj1 (proj2 (proj2 (proj2 (mode_result_sound _ H1 H2))))).
Defined.

Lemma runs_from_replicate (k : nat) (x c : Z) :
  runs_from x c (replicate k x) = [(x, c + Z.of_nat k)].
Proof.
  revert c. induction k as [| k IH]; intros c; cbn [replicate runs_from].
  - f_equal. f_equal. lia.
  - rewrite Z.eqb_refl, IH. f_equal. f_equal. lia.
Qed.

Lemma qsort_replicate (n : nat) (x : Z) :
  qsort compare (replicate n x) = replicate n x.
Proof.
  symmetry. apply replicate_Permutation. symmetry. apply qsort_perm.
Qed.

(** X10 (a sample of equal values).  For a sample made of [n >= 1] copies
    of one value [x], the mode is [x] alone with frequency [n], and the
    median is [x] when [n] is odd and the [int] sum [x + x] divided by
    [2.0] when [n] is even. *)
Theorem mode_of_constant_sample (n : nat) (x : Z) :
  (0 < n)%nat -> Z.of_nat n <= INT_MAX ->
  calculate_mode (replicate n x)
    = {| modes := [x]; count := 1; frequency := Z.of_nat n |} /\
  calculate_median (replicate n x)
    = (if Nat.even n then ddiv (double_of_Z (int_wrap (x + x))) d_two
       else double_of_Z x).
Proof.
  intros Hn Hmax. split.
  - unfold calculate_mode. rewrite length_replicate, qsort_replicate.
    destruct (Z.eqb_spec (Z.of_nat n) 0) as [E | _]; [lia |].
    rewrite <- (length_replicate n x) at 2.
    rewrite mode_scan_runs.
    + destruct n as [| k]; [lia |]. cbn [replicate runs].
      rewrite runs_from_replicate. unfold runs_of_length.
      cbn [max_run fold_right snd List.filter].
      replace (Z.max (1 + Z.of_nat k) 1) with (Z.of_nat (S k)) by lia.
      replace (1 + Z.of_nat k) with (Z.of_nat (S k)) by lia.
      rewrite Z.eqb_refl. reflexivity.
    + destruct n; [lia | discriminate].
    + rewrite length_replicate. exact Hmax.
  - unfold calculate_median. rewrite length_replicate, qsort_replicate.
    destruct (Z.eqb_spec (Z.of_nat n) 0) as [E | _]; [lia |].
    unfold median_select. rewrite rem2_even.
    assert (Hq : Z.quot (Z.of_nat n) 2 = Z.of_nat (n / 2)).
    { rewrite Z.quot_div_nonneg by lia. rewrite Nat2Z.inj_div. reflexivity. }
    assert (Hlt : (n / 2 < n)%nat) by (apply Nat.div_lt; lia).
    assert (Hat : forall i, 0 <= i < Z.of_nat n -> at_index (replicate n x) i = x).
    { intros i Hi. unfold at_index. apply nth_lookup_Some with (d := 0).
      apply lookup_replicate_2. lia. }
    rewrite Hq. destruct (Nat.even n) eqn:Ev.
    + assert (Hn2 : (2 <= n)%nat).
      { destruct n as [| [| n']]; [lia | discriminate | lia]. }
      assert (H2 : (1 <= n / 2)%nat) by (apply Nat.div_le_lower_bound; lia).
      rewrite !Hat by lia. reflexivity.
    + rewrite Hat by lia. reflexivity.
Qed.

Lemma mode_of_constant_sample_witness :
  (0 < 4)%nat /\ Z.of_nat 4 <= INT_MAX /\
  calculate_mode (replicate 4 INT_MIN)
    = {| modes := [INT_MIN]; count := 1; frequency := Z.of_nat 4 |}.
Proof.
  assert (H1 : (0 < 4)%nat) by lia.
  assert (H2 : Z.of_nat 4 <= INT_MAX) by (unfold INT_MAX; simpl; lia).
  split; [exact H1 |]. split; [exact H2 |].
  exact (proj1 (mode_of_constant_sample 4 INT_MIN H1 H2)).
Defined.

Lemma strictly_ascending_NoDup (l : list Z) : StronglySorted Z.lt l -> List.NoDup l.
Proof.
  induction 1 as [| x l Hs IH Hf]; constructor; [| exact IH].
  intros Hin. rewrite List.Forall_forall in Hf. specialize (Hf x Hin). lia.
Qed.

(** X11 (a sample of distinct values).  When the values of a non-empty
    sample are pairwise distinct and their differences fit in an [int],
    every value is a mode: the frequency is 1, [count] is the size of
    the sample, and the values returned are the sample in strictly
    ascending order. *)
Theorem mode_of_distinct_values (arr : list Z) :
  is_sample arr -> diff_fits arr -> arr <> [] -> List.NoDup arr ->
  frequency (calculate_mode arr) = 1 /\
  count (calculate_mode arr) = Z.of_nat (length arr) /\
  Permutation (modes (calculate_mode arr)) arr /\
  StronglySorted Z.lt (modes (calculate_mode arr)).
Proof.
  intros Hs Hd Hne Hnd.
  destruct (calculate_mode_correct arr Hs Hd) as (Hf & Hm & Hsorted & Hc).
  assert (Hone : forall v, In v arr -> mult v arr = 1).
  { intros v Hv. unfold mult.
    rewrite (proj1 (NoDup_count_occ' Z.eq_dec arr) Hnd v Hv). reflexivity. }
  assert (Hmax : max_mult arr = 1).
  { apply max_mult_unique.
    - intros v Hv. rewrite (Hone v Hv). lia.
    - destruct arr as [| a arr']; [congruence |].
      exists a. split; [left; reflexivity | apply Hone; left; reflexivity]. }
  assert (Hperm : Permutation (modes (calculate_mode arr)) arr).
  { apply Permutation.NoDup_Permutation.
    - apply strictly_ascending_NoDup, Hsorted.
    - exact Hnd.
    - intros v. rewrite Hm, Hmax. split; [tauto |].
      intros Hv. split; [exact Hv | apply Hone, Hv]. }
  split; [rewrite Hf; exact Hmax |].
  split; [rewrite Hc, (Permutation_length Hperm); reflexivity |].
  split; [exact Hperm | exact Hsorted].
Qed.

Lemma mode_of_distinct_values_witness :
  is_sample [4; 1; 3; 2] /\ diff_fits [4; 1; 3; 2] /\ [4; 1; 3; 2] <> [] /\
  List.NoDup [4; 1; 3; 2] /\
  frequency (calculate_mode [4; 1; 3; 2]) = 1.
Proof.
  assert (H1 : is_sample [4; 1; 3; 2]) by (apply is_sampleb_ok; reflexivity).
  assert (H2 : diff_fits [4; 1; 3; 2]) by (apply diff_fitsb_ok; reflexivity).
  assert (H3 : [4; 1; 3; 2] <> []) by discriminate.
  assert (H4 : List.NoDup [4; 1; 3; 2]).
  { repeat constructor; simpl; intuition lia. }
  split; [exact H1 |]. split; [exact H2 |]. split; [exact H3 |]. split; [exact H4 |].
  exact (proj1 (mode_of_distinct_values _ H1 H2 H3 H4)).
Defined.

(** ** Memory *)

(** X12 (what [calculate_mode] leaves in memory).  For a non-empty sample
    the heap after the call is the heap before it plus one block, the
    one [modes] points to: both scratch buffers have been freed, and the
    result block holds exactly [count] cells, the values of the modes. *)
Theorem mode_allocates_only_result (arr : nat) (data : list Z) (h : heap) :
  h !! arr = Some data -> is_sample data -> data <> [] ->
  exists r,
    h !! r = None /\
    modes_ptr (fst (calculate_mode_mem arr (Z.of_nat (length data)) h)) = Some r /\
    snd (calculate_mode_mem arr (Z.of_nat (length data)) h)
      = <[r := modes (calculate_mode data)]> h /\
    dom (snd (calculate_mode_mem arr (Z.of_nat (length data)) h)) = {[r]} ∪ dom h /\
    Z.of_nat (length (modes (calculate_mode data)))
      = count_mem (fst (calculate_mode_mem arr (Z.of_nat (length data)) h)).
Proof.
  intros Ha Hs Hne.
  destruct (calculate_mode_mem_spec arr data h Ha Hne) as (r & Hr & ->).
  destruct (calculate_mode_nonempty data Hs Hne) as (_ & _ & Hc).
  exists r. cbn [fst snd modes_ptr count_mem].
  split; [exact Hr |]. split; [reflexivity |]. split; [reflexivity |].
  split; [apply dom_insert_L | symmetry; exact Hc].
Qed.

Lemma mode_allocates_only_result_witness :
  ({[ 3%nat := [2; 9; 2] ]} : heap) !! 3%nat = Some [2; 9; 2] /\
  is_sample [2; 9; 2] /\ [2; 9; 2] <> [] /\
  exists r,
    ({[ 3%nat := [2; 9; 2] ]} : heap) !! r = None /\
    snd (calculate_mode_mem 3 (Z.of_nat (length [2; 9; 2])) {[ 3%nat := [2; 9; 2] ]})
      = <[r := modes (calculate_mode [2; 9; 2])]> {[ 3%nat := [2; 9; 2] ]}.
Proof.
  assert (H1 : ({[ 3%nat := [2; 9; 2] ]} : heap) !! 3%nat = Some [2; 9; 2])
    by reflexivity.
  assert (H2 : is_sample [2; 9; 2]) by (apply is_sampleb_ok; reflexivity).
  assert (H3 : [2; 9; 2] <> []) by discriminate.
  split; [exact H1 |]. split; [exact H2 |]. split; [exact H3 |].
  destruct (mode_allocates_only_result 3%nat [2; 9; 2] _ H1 H2 H3)
    as (r & Hr & _ & Hh & _).
  exists r. split; [exact Hr | exact Hh].
Defined.

(** X13 ([free_mode_result] gives the memory back).  Releasing the result
    of [calculate_mode] returns the heap to what it was before
    [calculate_mode] was called and leaves a result with a null pointer,
    count 0 and frequency 0; releasing that result once more changes
    nothing. *)
Theorem free_mode_result_restores_heap (arr : nat) (data : list Z) (h : heap) :
  h !! arr = Some data ->
  let r := calculate_mode_mem arr (Z.of_nat (length data)) h in
  let cleared := {| modes_ptr := None; count_mem := 0; frequency_mem := 0 |} in
  free_mode_result (fst r) (snd r) = (cleared, h) /\
  free_mode_result cleared h = (cleared, h).
Proof.
  intros Ha. cbv zeta. split; [| reflexivity].
  destruct data as [| x data].
  - reflexivity.
  - destruct (calculate_mode_mem_spec arr (x :: data) h Ha ltac:(discriminate))
      as (r & Hr & ->).
    unfold free_mode_result, free. cbn [fst snd modes_ptr].
    rewrite (delete_insert_id h r _ Hr). reflexivity.
Qed.

Lemma free_mode_result_restores_heap_witness :
  ({[ 3%nat := [2; 9; 2] ]} : heap) !! 3%nat = Some [2; 9; 2] /\
  snd (free_mode_result
         (fst (calculate_mode_mem 3 (Z.of_nat (length [2; 9; 2])) {[ 3%nat := [2; 9; 2] ]}))
         (snd (calculate_mode_mem 3 (Z.of_nat (length [2; 9; 2])) {[ 3%nat := [2; 9; 2] ]})))
    = {[ 3%nat := [2; 9; 2] ]}.
Proof.
  assert (H1 : ({[ 3%nat := [2; 9; 2] ]} : heap) !! 3%nat = Some [2; 9; 2])
    by reflexivity.
  split; [exact H1 |].
  pose proof (free_mode_result_restores_heap 3%nat [2; 9; 2] _ H1) as T.
  cbv zeta in T. destruct T as [T _]. rewrite T. reflexivity.
Defined.

Lemma sorted_copy_heap_prefix (arr : nat) (data : list Z) (h : heap) (size : Z) :
  h !! arr = Some data -> 0 <= size <= Z.of_nat (length data) ->
  let d := firstn (Z.to_nat size) data in
  let p := fst (malloc size h) in
  qsort_mem p size compare (memcpy p arr size (snd (malloc size h)))
  = <[p := qsort compare d]> h /\ h !! p = None /\ p <> arr.
Proof.
  intros Ha Hsz d p.
  assert (Hp : h !! p = None) by apply malloc_fresh.
  assert (Hpa : p <> arr) by congruence.
  assert (Hd : size = Z.of_nat (length d)).
  { unfold d. rewrite length_firstn. lia. }
  split; [| split; assumption].
  unfold malloc. cbn [snd]. change (fresh (dom h)) with p.
  unfold memcpy, qsort_mem.
  assert (R1 : read_array arr size (<[p := replicate (Z.to_nat size) 0]> h) = d).
  { unfold read_array, load. rewrite lookup_insert_ne by exact Hpa.
    rewrite Ha. reflexivity. }
  rewrite R1.
  rewrite (write_array_all p size (replicate (Z.to_nat size) 0) d);
    [| apply lookup_insert_eq | rewrite length_replicate; lia | exact Hd].
  rewrite insert_insert_eq.
  rewrite (read_array_all d size p); [| apply lookup_insert_eq | exact Hd].
  rewrite (write_array_all p size d (qsort compare d));
    [| apply lookup_insert_eq | symmetry; apply qsort_length
     | rewrite qsort_length; exact Hd].
  apply insert_insert_eq.
Qed.

Lemma calculate_mode_mem_prefix (arr : nat) (data : list Z) (h : heap) (size : Z) :
  h !! arr = Some data -> 0 < size <= Z.of_nat (length data) ->
  let d := firstn (Z.to_nat size) data in
  exists r,
    h !! r = None /\
    calculate_mode_mem arr size h
    = ({| modes_ptr := Some r;
          count_mem := count (calculate_mode d);
          frequency_mem := frequency (calculate_mode d) |},
       <[r := modes (calculate_mode d)]> h).
Proof.
  intros Ha Hsz d.
  assert (Hd : size = Z.of_nat (length d)).
  { unfold d. rewrite length_firstn. lia. }
  unfold calculate_mode_mem, calculate_mode. rewrite <- Hd.
  destruct (Z.eqb_spec size 0) as [E | _]; [lia |].
  destruct (sorted_copy_heap_prefix arr data h size Ha ltac:(lia)) as (Hq & Hp & Hpa).
  cbv zeta in Hq, Hp, Hpa. fold d in Hq.
  destruct (malloc size h) as [p h1] eqn:Em.
  cbn [fst snd] in Hq, Hp, Hpa. cbv zeta. rewrite Hq.
  set (sorted := qsort compare d).
  set (h3 := <[p := sorted]> h).
  pose proof (malloc_fresh size h3) as Ht.
  unfold malloc at 1. cbn [fst] in Ht. unfold malloc in Ht. cbn [fst] in Ht.
  set (t := fresh (dom h3)) in *.
  assert (Htp : t <> p).
  { intros ->. unfold h3 in Ht. rewrite lookup_insert_eq in Ht. discriminate. }
  assert (Hth : h !! t = None).
  { unfold h3 in Ht. rewrite lookup_insert_ne in Ht by congruence. exact Ht. }
  set (h4 := <[t := replicate (Z.to_nat size) 0]> h3).
  assert (Hls : size = Z.of_nat (length sorted)).
  { unfold sorted. rewrite qsort_length. exact Hd. }
  assert (Rs : read_array p size h4 = sorted).
  { apply read_array_all; [| exact Hls].
    unfold h4, h3. rewrite lookup_insert_ne by exact Htp. apply lookup_insert_eq. }
  assert (Rt : load t h4 = replicate (Z.to_nat size) 0).
  { unfold load, h4. rewrite lookup_insert_eq. reflexivity. }
  assert (Rs3 : read_array p size h3 = sorted).
  { apply read_array_all; [| exact Hls]. unfold h3. apply lookup_insert_eq. }
  rewrite Rs3, Rs, Rt. unfold mode_scan.
  destruct (pass2 (pass1 sorted) sorted (replicate (Z.to_nat size) 0))
    as [temp k].
  cbn [modes count frequency].
  set (h5 := <[t := temp]> h4).
  pose proof (malloc_fresh k h5) as Hr.
  unfold malloc at 1. unfold malloc in Hr. cbn [fst] in Hr.
  set (r := fresh (dom h5)) in *.
  assert (Hrt : r <> t).
  { intros ->. unfold h5 in Hr. rewrite lookup_insert_eq in Hr. discriminate. }
  assert (Hr4 : h4 !! r = None).
  { unfold h5 in Hr. rewrite lookup_insert_ne in Hr by congruence. exact Hr. }
  assert (Hrp : r <> p).
  { intros ->. unfold h4, h3 in Hr4.
    rewrite lookup_insert_ne, lookup_insert_eq in Hr4 by congruence. discriminate. }
  assert (Hrh : h !! r = None).
  { unfold h4, h3 in Hr4. rewrite !lookup_insert_ne in Hr4 by congruence. exact Hr4. }
  exists r. split; [exact Hrh |]. f_equal.
  unfold memcpy, write_array, read_array, load, free.
  rewrite lookup_insert_eq, lookup_insert_ne by congruence.
  unfold h5 at 1. rewrite lookup_insert_eq. cbn [default].
  rewrite insert_insert_eq.
  assert (Ek : firstn (Z.to_nat k) (firstn (Z.to_nat k) temp)
               ++ skipn (Z.to_nat k) (replicate (Z.to_nat k) 0)
               = firstn (Z.to_nat k) temp).
  { rewrite skipn_all2 by (rewrite length_replicate; lia).
    rewrite app_nil_r, firstn_firstn, Nat.min_id. reflexivity. }
  unfold id. rewrite Ek. apply map_eq. intros i.
  unfold h5, h4, h3.
  destruct (decide (i = t)) as [-> | Hit].
  { rewrite lookup_delete_eq, lookup_insert_ne by congruence. congruence. }
  rewrite lookup_delete_ne by congruence.
  destruct (decide (i = p)) as [-> | Hip].
  { rewrite lookup_delete_eq, lookup_insert_ne by congruence. congruence. }
  rewrite lookup_delete_ne by congruence.
  destruct (decide (i = r)) as [-> | Hir].
  { rewrite !lookup_insert_eq. reflexivity. }
  rewrite !lookup_insert_ne by congruence. reflexivity.
Qed.

(** X14 (only the first [size] cells are used).  When [arr] points to a
    block of at least [size] cells, each calculator returns what it
    computes from the first [size] cells, and leaves the block, the
    cells beyond [size] included, as it was. *)
Theorem calculators_use_first_size_cells
    (long_bits : Z) (arr : nat) (data : list Z) (h : heap) (size : Z) :
  h !! arr = Some data -> 0 <= size <= Z.of_nat (length data) ->
  let d := firstn (Z.to_nat size) data in
  calculate_mean_mem long_bits arr size h = (calculate_mean long_bits d, h) /\
  calculate_median_mem arr size h = (calculate_median d, h) /\
  mode_result_of (calculate_mode_mem arr size h) = calculate_mode d /\
  snd (calculate_mode_mem arr size h) !! arr = Some data.
Proof.
  intros Ha Hsz d.
  assert (Hd : size = Z.of_nat (length d)).
  { unfold d. rewrite length_firstn. lia. }
  split; [| split].
  - unfold calculate_mean_mem, calculate_mean. rewrite <- Hd.
    destruct (size =? 0); [reflexivity |].
    unfold read_array, load. rewrite Ha. reflexivity.
  - unfold calculate_median_mem, calculate_median. rewrite <- Hd.
    destruct (size =? 0); [reflexivity |].
    destruct (sorted_copy_heap_prefix arr data h size Ha Hsz) as (Hq & Hp & Hpa).
    cbv zeta in Hq, Hp, Hpa. fold d in Hq.
    destruct (malloc size h) as [p h1] eqn:Em.
    cbn [fst snd] in Hq, Hp, Hpa. rewrite Hq.
    rewrite (read_array_all (qsort compare d) size p);
      [| apply lookup_insert_eq | rewrite qsort_length; exact Hd].
    f_equal. unfold free. apply delete_insert_id. exact Hp.
  - destruct (Z.eq_dec size 0) as [E | E].
    + assert (Hnil : d = []).
      { apply length_zero_iff_nil. lia. }
      rewrite Hnil, E. split; [reflexivity | exact Ha].
    + destruct (calculate_mode_mem_prefix arr data h size Ha ltac:(lia))
        as (r & Hr & ->).
      fold d. split.
      * unfold mode_result_of, load. cbn [fst snd modes_ptr count_mem frequency_mem].
        rewrite lookup_insert_eq. cbn [default].
        destruct (calculate_mode d). reflexivity.
      * cbn [snd]. rewrite lookup_insert_ne by congruence. exact Ha.
Qed.

Lemma calculators_use_first_size_cells_witness :
  ({[ 5%nat := [9; 1; 5; 7; 7] ]} : heap) !! 5%nat = Some [9; 1; 5; 7; 7] /\
  0 <= 3 <= Z.of_nat (length [9; 1; 5; 7; 7]) /\
  calculate_median_mem 5 3 {[ 5%nat := [9; 1; 5; 7; 7] ]}
    = (calculate_median [9; 1; 5], {[ 5%nat := [9; 1; 5; 7; 7] ]}).
Proof.
  assert (H1 : ({[ 5%nat := [9; 1; 5; 7; 7] ]} : heap) !! 5%nat = Some [9; 1; 5; 7; 7])
    by reflexivity.
  assert (H2 : 0 <= 3 <= Z.of_nat (length [9; 1; 5; 7; 7])) by (simpl; lia).
  split; [exact H1 |]. split; [exact H2 |].
  exact (proj1 (proj2 (calculators_use_first_size_cells 64 5%nat _ _ 3 H1 H2))).
Defined.

(** ** The report *)

(** X15 ([print_array] writes the first [size] elements).  For a [size]
    between 0 and the length of the array, [print_array] writes an
    opening bracket, the first [size] elements in decimal separated by a
    comma and a space, with no separator after the last, and a closing
    bracket; for [size = 0] it writes the two brackets alone. *)
Theorem print_array_writes_prefix (arr : list Z) (size : Z) :
  0 <= size <= Z.of_nat (length arr) ->
  print_array arr size = array_literal (firstn (Z.to_nat size) arr) /\
  print_array arr 0 = "[]".
Proof.
  intros Hsz. split; [| reflexivity].
  unfold print_array, array_literal. f_equal. f_equal.
  unfold print_elems.
  destruct (Z.to_nat size) as [| k] eqn:Ek.
  - replace size with 0 by lia. reflexivity.
  - replace size with (Z.of_nat (S k)) by lia.
    rewrite seqZ_S, fold_left_app.
    replace (Z.of_nat (S k) - 1) with (Z.of_nat k) by lia.
    rewrite (print_loop_prefix arr (Z.of_nat k) k) by lia.
    cbn [fold_left]. rewrite Z.add_0_l, Z.ltb_irrefl, append_nil_r.
    destruct (lookup_lt_is_Some_2 arr k ltac:(lia)) as [x Hx].
    rewrite (take_S_r arr k x Hx), concat_snoc.
    unfold at_index. rewrite Nat2Z.id, (nth_lookup_Some arr k 0 x Hx).
    reflexivity.
Qed.

Lemma print_array_writes_prefix_witness :
  0 <= 2 <= Z.of_nat (length [5; -6; 7]) /\
  print_array [5; -6; 7] 2 = array_literal (firstn (Z.to_nat 2) [5; -6; 7]).
Proof.
  assert (H : 0 <= 2 <= Z.of_nat (length [5; -6; 7])) by (simpl; lia).
  split; [exact H |].
  exact (proj1 (print_array_writes_prefix [5; -6; 7] 2 H)).
Defined.

(** X16 ([print_statistics] leaves memory as it found it).  When [arr]
    points to the sample, the report written is the one computed from
    the contents of the sample, and the heap after the call is the heap
    before it: the sample is untouched and the mode result has been
    released.  With [size = 0] this holds for any pointer, a null or
    dangling one included, since no calculator is called. *)
Theorem print_statistics_releases_memory
    (long_bits : Z) (arr : nat) (data : list Z) (h : heap) :
  h !! arr = Some data ->
  print_statistics_mem long_bits arr (Z.of_nat (length data)) h
    = (print_statistics long_bits data, h) /\
  (forall (p : nat) (h' : heap),
     print_statistics_mem long_bits p 0 h' = (print_statistics long_bits [], h')).
Proof.
  intros Ha. split; [| intros p h'; reflexivity].
  unfold print_statistics_mem, print_statistics.
  assert (Hl : load arr h = data) by (unfold load; rewrite Ha; reflexivity).
  rewrite Hl.
  destruct (Z.eqb_spec (Z.of_nat (length data)) 0) as [E | E].
  { rewrite !append_assoc. reflexivity. }
  assert (Hne : data <> []) by (intros ->; apply E; reflexivity).
  rewrite (calculate_mean_mem_spec long_bits arr data h Ha).
  rewrite (calculate_median_mem_spec arr data h Ha).
  destruct (calculate_mode_mem_spec arr data h Ha Hne) as (r & Hr & ->).
  cbv zeta. unfold free_mode_result, free, load.
  cbn [modes_ptr count_mem frequency_mem].
  rewrite lookup_insert_eq. cbn [default]. unfold id.
  rewrite (delete_insert_id h r _ Hr).
  destruct (count (calculate_mode data) =? 1); rewrite !append_assoc; reflexivity.
Qed.

Lemma print_statistics_releases_memory_witness :
  ({[ 3%nat := [2; 9; 2] ]} : heap) !! 3%nat = Some [2; 9; 2] /\
  print_statistics_mem 64 3 (Z.of_nat (length [2; 9; 2])) {[ 3%nat := [2; 9; 2] ]}
    = (print_statistics 64 [2; 9; 2], {[ 3%nat := [2; 9; 2] ]}).
Proof.
  assert (H1 : ({[ 3%nat := [2; 9; 2] ]} : heap) !! 3%nat = Some [2; 9; 2])
    by reflexivity.
  split; [exact H1 |].
  exact (proj1 (print_statistics_releases_memory 64 3%nat [2; 9; 2] _ H1)).
Defined.

Lemma mean_sum_when_sum_fits (long_bits : Z) (arr : list Z) :
  0 < long_bits ->
  - 2 ^ (long_bits - 1) <= sum_of arr < 2 ^ (long_bits - 1) ->
  mean_sum long_bits arr = sum_of arr.
Proof.
  intros Hw Hb. rewrite mean_sum_wrap by exact Hw. apply wrap_small; assumption.
Qed.

Lemma print_statistics_width (w1 w2 : Z) (arr : list Z) :
  mean_sum w1 arr = mean_sum w2 arr ->
  print_statistics w1 arr = print_statistics w2 arr.
Proof.
  intros H. unfold print_statistics, calculate_mean. rewrite H. reflexivity.
Qed.

(** X17 (what the program prints).  On every platform whose [long] has
    at least 32 bits, [main] writes the banner, the four reports of the
    demonstration arrays and the report of the empty array, and returns
    0. *)
Theorem main_output (long_bits : Z) :
  32 <= long_bits ->
  main long_bits =
  ("=== C Statistics Calculator (Procedural Approach) ===" +:+ nl +:+ nl +:+
   "Array: [1, 2, 3, 4, 5, 5, 5]" +:+ nl +:+ "Mean: 3.57" +:+ nl +:+
   "Median: 4.00" +:+ nl +:+ "Mode: 5 (frequency: 3)" +:+ nl +:+ nl +:+
   "Array: [1, 1, 2, 2, 3, 3]" +:+ nl +:+ "Mean: 2.00" +:+ nl +:+
   "Median: 2.00" +:+ nl +:+ "Mode: [1, 2, 3] (frequency: 2 each)" +:+ nl +:+ nl +:+
   "Array: [42]" +:+ nl +:+ "Mean: 42.00" +:+ nl +:+
   "Median: 42.00" +:+ nl +:+ "Mode: 42 (frequency: 1)" +:+ nl +:+ nl +:+
   "Array: [1, 2, 3, 4]" +:+ nl +:+ "Mean: 2.50" +:+ nl +:+
   "Median: 2.50" +:+ nl +:+ "Mode: [1, 2, 3, 4] (frequency: 1 each)" +:+ nl +:+ nl +:+
   "Array: []" +:+ nl +:+ "Cannot calculate statistics for empty array." +:+ nl,
   0).
Proof.
  intros Hw.
  assert (Hp : 2 ^ 31 <= 2 ^ (long_bits - 1)) by (apply Z.pow_le_mono_r; lia).
  change (2 ^ 31) with 2147483648 in Hp.
  assert (Hfit : forall arr, - 100 <= sum_of arr <= 100 ->
                 print_statistics long_bits arr = print_statistics 64 arr).
  { intros arr Hs. apply print_statistics_width.
    rewrite (mean_sum_when_sum_fits long_bits) by lia.
    rewrite (mean_sum_when_sum_fits 64); [reflexivity | lia |].
    change (2 ^ (64 - 1)) with 9223372036854775808. lia. }
  unfold main.
  rewrite !Hfit by (simpl; lia).
  vm_compute. reflexivity.
Qed.

Lemma main_output_witness : 32 <= 32 /\ snd (main 32) = 0.
Proof.
  assert (H : 32 <= 32) by lia.
  split; [exact H |].
  rewrite (main_output 32 H). reflexivity.
Defined.
